(** * The particle background of script.js

    A shallow embedding of the "PARTICLES CANVAS" part of [script.js]:
    [resizeCanvas], [createParticles] and [drawParticles], together with
    the page state they share ([canvas], [mouseX], [mouseY], [particles]).

    Numbers.  JavaScript numbers are binary64 floats.  Here the finite ones
    are exact reals ([R]): rounding is not modelled.  The special values
    of a division by zero are modelled ([Num]), because the parallax
    computation divides by the canvas width and height.  The canvas
    dimensions are unsigned integers ([N]), as the DOM has them.

    Rounding.  A statement over the exact reals is kept only where the
    rounding of binary64 leaves it true: bounds are closed where a product
    can round onto the bound, growth is claimed only below the magnitude
    at which an addend is rounded away, and no closed form of an iterated
    sum is claimed.  Where the rounding itself decides ([twinkle64]), the
    operation is taken on the binary64 numbers of the kernel.

    The other listeners of the script that compute something are embedded
    after the particles: the cursor follower ([followLoop]), the typewriter
    ([typeLoop]), the navigation highlight ([setActiveLink]), the tilt of
    cards and sections, the theme toggle and the gallery tabs.  What they
    write into the page as formatted text (a transform, a class) is
    modelled by the values the text is built from. *)

From Stdlib Require Import Reals Lra Lia List NArith ZArith.
From Stdlib Require Ascii String Floats.
Import ListNotations.
Import String.StringSyntax.
Import PrimFloat.
Delimit Scope string_scope with string.

Open Scope R_scope.

(** ** JavaScript numbers with the special values *)

Inductive Num : Type :=
| Fin (r : R)
| PosInf
| NegInf
| NaN.

Definition Rsign (r : R) : comparison :=
  match total_order_T r 0 with
  | inleft (left _) => Lt
  | inleft (right _) => Eq
  | inright _ => Gt
  end.

Definition signed_inf (s : comparison) : Num :=
  match s with
  | Gt => PosInf
  | Lt => NegInf
  | Eq => NaN
  end.

Definition Nadd (a b : Num) : Num :=
  match a, b with
  | NaN, _ | _, NaN => NaN
  | Fin x, Fin y => Fin (x + y)
  | PosInf, NegInf | NegInf, PosInf => NaN
  | PosInf, _ | _, PosInf => PosInf
  | NegInf, _ | _, NegInf => NegInf
  end.

Definition Nopp (a : Num) : Num :=
  match a with
  | Fin x => Fin (- x)
  | PosInf => NegInf
  | NegInf => PosInf
  | NaN => NaN
  end.

Definition Nsub (a b : Num) : Num := Nadd a (Nopp b).

Definition Nmul (a b : Num) : Num :=
  match a, b with
  | NaN, _ | _, NaN => NaN
  | Fin x, Fin y => Fin (x * y)
  | Fin x, PosInf | PosInf, Fin x => signed_inf (Rsign x)
  | Fin x, NegInf | NegInf, Fin x => signed_inf (CompOpp (Rsign x))
  | PosInf, PosInf | NegInf, NegInf => PosInf
  | PosInf, NegInf | NegInf, PosInf => NegInf
  end.

(** A zero divisor is [+0]: the only divisors of the modelled code that can
    be zero are the canvas width and height, which are unsigned integers. *)
Definition Ndiv (a b : Num) : Num :=
  match a, b with
  | NaN, _ | _, NaN => NaN
  | Fin x, Fin y =>
      match Rsign y with
      | Eq => signed_inf (Rsign x)
      | _ => Fin (x / y)
      end
  | Fin _, PosInf | Fin _, NegInf => Fin 0
  | PosInf, Fin y => match Rsign y with Lt => NegInf | _ => PosInf end
  | NegInf, Fin y => match Rsign y with Lt => PosInf | _ => NegInf end
  | _, _ => NaN
  end.

Definition ofN (n : N) : R := IZR (Z.of_N n).

(** ** The page state *)

(** [{type:'dot', x, y, vx, vy, r, alpha}] and
    [{type:'star', x, y, r, twinkle, twinkleSpeed, baseAlpha, parallax}]. *)
Inductive Particle : Type :=
| dot (x y vx vy r alpha : R)
| star (x y r twinkle twinkleSpeed baseAlpha parallax : R).

Record Canvas : Type := mkCanvas { width : N; height : N }.

Record Page : Type := mkPage {
  canvas : Canvas;
  mouseX : R;
  mouseY : R;
  particles : list Particle
}.

Definition isDot (p : Particle) : bool :=
  match p with dot _ _ _ _ _ _ => true | star _ _ _ _ _ _ _ => false end.

Definition isStar (p : Particle) : bool := negb (isDot p).

Definition dustCount (ps : list Particle) : nat := length (filter isDot ps).
Definition starCount (ps : list Particle) : nat := length (filter isStar ps).

Definition p_x (p : Particle) : R :=
  match p with dot x _ _ _ _ _ => x | star x _ _ _ _ _ _ => x end.

Definition p_y (p : Particle) : R :=
  match p with dot _ y _ _ _ _ => y | star _ y _ _ _ _ _ => y end.

(** ** [Math.random]

    The values [Math.random()] returns on its successive calls are a
    sequence; a computation that calls it threads the index of the next
    call. *)

Definition Random : Type := nat -> R.

Definition Rand (A : Type) : Type := Random -> nat -> A * nat.

Definition ret {A : Type} (a : A) : Rand A := fun _ k => (a, k).

Definition bind {A B : Type} (m : Rand A) (f : A -> Rand B) : Rand B :=
  fun rnd k => let (a, k') := m rnd k in f a rnd k'.

Notation "x <- m ;; f" := (bind m (fun x => f))
  (at level 61, m at next level, right associativity).

Definition Math_random : Rand R := fun rnd k => (rnd k, S k).

(** What [Math.random] promises: a value in [0, 1). *)
Definition unit_interval (rnd : Random) : Prop :=
  forall k : nat, 0 <= rnd k < 1.

(** ** [resizeCanvas] *)

Definition resizeCanvas (innerWidth innerHeight : N) (pg : Page) : Page :=
  mkPage (mkCanvas innerWidth innerHeight) (mouseX pg) (mouseY pg) (particles pg).

(** ** [createParticles] *)

(** The object literal of the first loop; its properties are evaluated in
    the order they are written. *)
Definition newDot (c : Canvas) : Rand Particle :=
  x  <- Math_random ;;
  y  <- Math_random ;;
  vx <- Math_random ;;
  vy <- Math_random ;;
  r  <- Math_random ;;
  a  <- Math_random ;;
  ret (dot (x * ofN (width c)) (y * ofN (height c))
           ((vx - 0.5) * 0.3) ((vy - 0.5) * 0.6)
           (r * 2 + 0.2) (a * 0.12 + 0.03)).

Definition newStar (c : Canvas) : Rand Particle :=
  x  <- Math_random ;;
  y  <- Math_random ;;
  r  <- Math_random ;;
  tw <- Math_random ;;
  ts <- Math_random ;;
  ba <- Math_random ;;
  px <- Math_random ;;
  ret (star (x * ofN (width c)) (y * ofN (height c))
            (r * 1.6 + 0.4) (tw * PI * 2) (ts * 0.035 + 0.005)
            (ba * 0.8 + 0.15) (px * 0.8 + 0.2)).

(** [for (let i = 0; i < n; i++) particles.push(mk())] *)
Fixpoint pushLoop (n : nat) (mk : Rand Particle) (ps : list Particle)
  : Rand (list Particle) :=
  match n with
  | O => ret ps
  | S n' => p <- mk ;; pushLoop n' mk (ps ++ [p])
  end.

(** [Math.max(30, Math.floor(area / 140000))] on a non-negative integer
    area. *)
Definition dotCount (c : Canvas) : N :=
  N.max 30 ((width c * height c) / 140000).

Definition starCountOf (c : Canvas) : N :=
  N.max 70 ((width c * height c) / 60000).

Definition createParticles (pg : Page) : Rand Page :=
  let emptied : list Particle := [] in          (* particles.length = 0 *)
  ps1 <- pushLoop (N.to_nat (dotCount (canvas pg))) (newDot (canvas pg)) emptied ;;
  ps2 <- pushLoop (N.to_nat (starCountOf (canvas pg))) (newStar (canvas pg)) ps1 ;;
  ret (mkPage (canvas pg) (mouseX pg) (mouseY pg) ps2).

(** ** [drawParticles] *)

(** What a frame puts on the drawing context: [ctx.clearRect(0, 0, w, h)]
    and, for each disc, the alpha of its [fillStyle] with the centre and
    the radius given to [ctx.arc]. *)
Inductive DrawCmd : Type :=
| clearRect (w h : N)
| arc (alpha : R) (cx cy : Num) (radius : R).

(** The two tests the loop body makes on one coordinate of a dot, in the
    order of the source:
    [if (v < -50) v = edge + 20;  if (v > edge + 50) v = -20;] *)
Definition wrap (edge : N) (v : R) : R :=
  let v1 := if Rlt_dec v (-50) then ofN edge + 20 else v in
  if Rgt_dec v1 (ofN edge + 50) then -20 else v1.

(** [(mouse / edge - 0.5) * 30 * parallax] *)
Definition parallaxOffset (mouse : R) (edge : N) (parallax : R) : Num :=
  Nmul (Nmul (Nsub (Ndiv (Fin mouse) (Fin (ofN edge))) (Fin 0.5)) (Fin 30))
       (Fin parallax).

(** The body of the [for (const p of particles)] loop: the particle as the
    body leaves it, and what it draws. *)
Definition drawParticle (c : Canvas) (mX mY : R) (p : Particle)
  : Particle * list DrawCmd :=
  match p with
  | dot x y vx vy r alpha =>
      let x := x + vx in
      let y := y + vy in
      let x := wrap (width c) x in
      let y := wrap (height c) y in
      (dot x y vx vy r alpha, [arc alpha (Fin x) (Fin y) r])
  | star x y r twinkle twinkleSpeed baseAlpha parallax =>
      let twinkle := twinkle + twinkleSpeed in
      let t := Rabs (sin twinkle) in
      let a := Rmin 1 (baseAlpha + t * 0.6) in
      let px := parallaxOffset mX (width c) parallax in
      let py := parallaxOffset mY (height c) parallax in
      (star x y r twinkle twinkleSpeed baseAlpha parallax,
       [arc a (Nadd (Fin x) px) (Nadd (Fin y) py) (r * 1.1);
        arc (a * 0.6) (Nadd (Fin x) px) (Nadd (Fin y) py) (r * 2.6)])
  end.

Definition drawParticles (pg : Page) : Page * list DrawCmd :=
  let done := map (drawParticle (canvas pg) (mouseX pg) (mouseY pg)) (particles pg) in
  (mkPage (canvas pg) (mouseX pg) (mouseY pg) (map fst done),
   clearRect (width (canvas pg)) (height (canvas pg)) :: concat (map snd done)).

(** ** The page as a state machine

    After the script has run, the page changes only through its listeners:
    ['resize'] runs [resizeCanvas], ['mousemove'] stores the pointer, and
    every animation frame runs [drawParticles] (the script's own first call
    of [drawParticles] is a frame like the others). *)
Inductive Event : Type :=
| resize (innerWidth innerHeight : N)
| mousemove (clientX clientY : R)
| frame.

Definition handle (pg : Page) (e : Event) : Page * list DrawCmd :=
  match e with
  | resize iw ih => (resizeCanvas iw ih pg, [])
  | mousemove cx cy => (mkPage (canvas pg) cx cy (particles pg), [])
  | frame => drawParticles pg
  end.

Definition run (evs : list Event) (pg : Page) : Page :=
  fold_left (fun s e => fst (handle s e)) evs pg.

Definition isFrame (e : Event) : bool :=
  match e with frame => true | _ => false end.

Definition frameCount (evs : list Event) : nat := length (filter isFrame evs).

(** The page when the script has run [resizeCanvas()] and
    [createParticles()] in a window of the given inner size: the pointer is
    still at its initial (0, 0), [particles] was the empty array, and the
    dimensions the canvas had before are overwritten. *)
Definition boot (innerWidth innerHeight : N) (rnd : Random) : Page :=
  fst (createParticles
         (resizeCanvas innerWidth innerHeight (mkPage (mkCanvas 0 0) 0 0 []))
         rnd 0%nat).

(** ** The specification's formulas *)

(** "if the coordinate is less than -50 it is set to (edge length + 20), and
    if it is greater than (edge length + 50) it is set to -20" *)
Definition spec_wrap (edge : N) (v : R) : R :=
  if Rlt_dec v (-50) then ofN edge + 20
  else if Rgt_dec v (ofN edge + 50) then -20
  else v.

(** "min(1, baseAlpha + |sin(phase)| * 0.6)" *)
Definition spec_opacity (baseAlpha phase : R) : R :=
  Rmin 1 (baseAlpha + Rabs (sin phase) * 0.6).

(** "(pointer/edge - 0.5) * 30 * parallax", on a canvas edge that is not
    zero. *)
Definition spec_offset (pointer : R) (edge : N) (parallax : R) : R :=
  (pointer / ofN edge - 0.5) * 30 * parallax.

(** ** What the properties read off a particle *)

(** The fields of a dot other than its position. *)
Definition dotAttrs (p : Particle) : option (R * R * R * R) :=
  match p with
  | dot _ _ vx vy r alpha => Some (vx, vy, r, alpha)
  | star _ _ _ _ _ _ _ => None
  end.

Definition velocity (p : Particle) : option (R * R) :=
  match p with
  | dot _ _ vx vy _ _ => Some (vx, vy)
  | star _ _ _ _ _ _ _ => None
  end.

(** The fields of a star other than its twinkle phase. *)
Definition starAttrs (p : Particle) : option (R * R * R * R * R * R) :=
  match p with
  | dot _ _ _ _ _ _ => None
  | star x y r _ twinkleSpeed baseAlpha parallax =>
      Some (x, y, r, twinkleSpeed, baseAlpha, parallax)
  end.

Definition twinkleOf (p : Particle) : option R :=
  match p with
  | dot _ _ _ _ _ _ => None
  | star _ _ _ twinkle _ _ _ => Some twinkle
  end.



(** The ranges [createParticles] draws the velocity of a dot and the
    twinkle speed of a star from. *)
Definition velocityInRange (v : option (R * R)) : Prop :=
  forall vx vy : R, v = Some (vx, vy) ->
    -0.15 <= vx < 0.15 /\ -0.3 <= vy < 0.3.


(** A dot within the margin of 50 around a [W] x [H] rectangle. *)
Definition dustWithin (W H : N) (p : Particle) : Prop :=
  match p with
  | dot x y _ _ _ _ =>
      -50 <= x <= ofN W + 50 /\ -50 <= y <= ofN H + 50
  | star _ _ _ _ _ _ _ => True
  end.

(** An event that does not make the canvas larger than [W] x [H]. *)
Definition resizeWithin (W H : N) (e : Event) : Prop :=
  match e with
  | resize iw ih => (iw <= W)%N /\ (ih <= H)%N
  | _ => True
  end.

(** A sequence of [Math.random] values used in the examples. *)
Definition sampleRandom : Random := fun k => / (INR k + 2).

(** ** Further readings of the page *)

Definition isMousemove (e : Event) : bool :=
  match e with mousemove _ _ => true | _ => false end.

Definition isResize (e : Event) : bool :=
  match e with resize _ _ => true | _ => false end.

(** Where [n] frames leave a particle on which no wrap fires: a dot moved
    [n] times by its velocity, a star with its speed added [n] times. *)
Definition advance (n : nat) (p : Particle) : Particle :=
  match p with
  | dot x y vx vy r alpha => dot (x + INR n * vx) (y + INR n * vy) vx vy r alpha
  | star x y r twinkle twinkleSpeed baseAlpha parallax =>
      star x y r (twinkle + INR n * twinkleSpeed) twinkleSpeed baseAlpha parallax
  end.

(** The ranges [createParticles] draws radius and opacity from, with their
    upper ends: a product with a [Math.random()] next to 1 can round onto
    them. *)
Definition looksInRange (p : Particle) : Prop :=
  match p with
  | dot _ _ _ _ r alpha => 0.2 <= r <= 2.2 /\ 0.03 <= alpha <= 0.15
  | star _ _ r _ _ baseAlpha parallax =>
      0.4 <= r <= 2 /\ 0.15 <= baseAlpha <= 0.95 /\ 0.2 <= parallax <= 1
  end.

(** A particle as [createParticles] places it on canvas [c]. *)
Definition createdInside (c : Canvas) (p : Particle) : Prop :=
  0 <= p_x p <= ofN (width c) /\ 0 <= p_y p <= ofN (height c) /\
  (width c <> 0%N -> p_x p < ofN (width c)) /\
  (height c <> 0%N -> p_y p < ofN (height c)) /\
  forall tw : R, twinkleOf p = Some tw -> 0 <= tw < 2 * PI.

(** A dot that starts on the canvas with a velocity of the created range. *)
Definition startsOn (c : Canvas) (p : Particle) : Prop :=
  match p with
  | dot x y vx vy _ _ =>
      0 <= x <= ofN (width c) /\ 0 <= y <= ofN (height c) /\
      -0.15 <= vx <= 0.15 /\ -0.3 <= vy <= 0.3
  | star _ _ _ _ _ _ _ => True
  end.

(** A disc with an opacity in [0.03, 1] and a radius in [0.2, 5.2]. *)
Definition drawnVisible (d : DrawCmd) : Prop :=
  match d with
  | clearRect _ _ => True
  | arc alpha _ _ radius => 0.03 <= alpha <= 1 /\ 0.2 <= radius <= 5.2
  end.

(** A star whose parallax offset is finite, at most 15 * parallax on each
    axis, and at most 15. *)
Definition shiftWithin (c : Canvas) (mX mY : R) (p : Particle) : Prop :=
  match p with
  | dot _ _ _ _ _ _ => True
  | star _ _ _ _ _ _ parallax =>
      exists ox oy : R,
        parallaxOffset mX (width c) parallax = Fin ox /\
        parallaxOffset mY (height c) parallax = Fin oy /\
        Rabs ox <= 15 * parallax /\ Rabs oy <= 15 * parallax /\
        Rabs ox <= 15 /\ Rabs oy <= 15
  end.

(** ** The cursor follower: [followLoop]

    [fx] and [fy] are the numbers [followLoop] writes into the transform of
    the follower; [mouseX] and [mouseY] are the ones the particles read. *)

Record Follower : Type := mkFollower { fx : R; fy : R }.

Definition followLoop (mX mY : R) (f : Follower) : Follower :=
  mkFollower (fx f + (mX - fx f) * 0.14) (fy f + (mY - fy f) * 0.14).

(** [n] animation frames with the pointer at rest. *)
Fixpoint followFrames (n : nat) (mX mY : R) (f : Follower) : Follower :=
  match n with
  | O => f
  | S n' => followFrames n' mX mY (followLoop mX mY f)
  end.

(** One frame for each pointer position of the list. *)
Definition followTrack (pts : list (R * R)) (f : Follower) : Follower :=
  fold_left (fun g pt => followLoop (fst pt) (snd pt) g) pts f.

(** ** The typewriter: [typeLoop]

    The words of the script are ASCII, so a string of bytes has the length
    and the slices of the JavaScript string. *)

Definition words : list String.string :=
  ["I build with curiosity.";
   "I explore code & design.";
   "I love drawing and discovering beaches."]%string.

(** [wIdx], [ch] and [direction]. *)
Record Typewriter : Type := mkTypewriter { wIdx : nat; ch : Z; direction : Z }.

(** [let wIdx = 0, ch = 0, direction = 1] *)
Definition typeStart : Typewriter := mkTypewriter 0 0 1.

(** [word.slice(0, e)]: a negative end counts from the end of the word, and
    the end is clamped to the word. *)
Definition slice0 (word : String.string) (e : Z) : String.string :=
  let len := Z.of_nat (String.length word) in
  let final := if (e <? 0)%Z then Z.max (len + e) 0 else Z.min e len in
  String.substring 0 (Z.to_nat final) word.

(** One call of [typeLoop] on the words [ws]: the new variables, the text
    put into the element and the delay given to [setTimeout].  [None] when
    [words[wIdx]] is undefined, where [word.slice] throws. *)
Definition typeLoop (ws : list String.string) (s : Typewriter)
  : option (Typewriter * String.string * Z) :=
  match nth_error ws (wIdx s) with
  | None => None
  | Some word =>
      if (direction s =? 1)%Z then
        let ch' := (ch s + 1)%Z in
        let text := slice0 word ch' in
        if (ch' >=? Z.of_nat (String.length word))%Z
        then Some (mkTypewriter (wIdx s) ch' (-1), text, 1000%Z)
        else Some (mkTypewriter (wIdx s) ch' (direction s), text,
                   if (direction s =? 1)%Z then 90%Z else 30%Z)
      else
        let ch' := (ch s - 1)%Z in
        let text := slice0 word ch' in
        if (ch' <=? 0)%Z
        then Some (mkTypewriter ((wIdx s + 1) mod length ws) ch' 1, text,
                   if (1 =? 1)%Z then 90%Z else 30%Z)
        else Some (mkTypewriter (wIdx s) ch' (direction s), text,
                   if (direction s =? 1)%Z then 90%Z else 30%Z)
  end.

(** The variables after [n] calls. *)
Fixpoint typeRun (ws : list String.string) (n : nat) (s : Typewriter)
  : option Typewriter :=
  match n with
  | O => Some s
  | S n' =>
      match typeLoop ws s with
      | None => None
      | Some (s', _, _) => typeRun ws n' s'
      end
  end.

(** The variables between two calls of [typeLoop]: a word is selected, and
    either it is being typed and not complete, or it is being deleted and
    not empty. *)
Definition typeOk (ws : list String.string) (s : Typewriter) : Prop :=
  exists word : String.string,
    nth_error ws (wIdx s) = Some word /\
    ((direction s = 1%Z /\ (0 <= ch s < Z.of_nat (String.length word))%Z) \/
     (direction s = (-1)%Z /\ (1 <= ch s <= Z.of_nat (String.length word))%Z)).

(** The number of characters of all words together. *)
Definition totalLength (ws : list String.string) : nat :=
  fold_right (fun w n => (String.length w + n)%nat) 0%nat ws.

(** ** Navigation: [setActiveLink] *)

Definition sections : list String.string :=
  ["intro"; "about"; "projects"; "gallery"; "certs"; "contact"]%string.

(** The page as [setActiveLink] reads it: the [offsetTop] of the element
    [q('#' + id)], [None] when there is no such element. *)
Definition Layout : Type := String.string -> option Z.

(** The loop [for (const id of sections)], started with [active]. *)
Definition scanSections (dom : Layout) (scrollPos : R)
           (ids : list String.string) (active : String.string) : String.string :=
  fold_left
    (fun active id =>
       match dom id with
       | None => active                                    (* continue *)
       | Some offsetTop =>
           if Rle_dec (IZR offsetTop) scrollPos then id else active
       end)
    ids active.

(** The value of [active] when the loop is over. *)
Definition activeSection (dom : Layout) (scrollY : R) : String.string :=
  let scrollPos := scrollY + 120 in
  scanSections dom scrollPos sections (nth 0 sections ""%string).

(** The ['active'] class of each link after [setActiveLink], given the
    [href] attribute of each ([None] when a link has none). *)
Definition setActiveLink (dom : Layout) (scrollY : R)
           (hrefs : list (option String.string)) : list bool :=
  let active := activeSection dom scrollY in
  map (fun href =>
         match href with
         | Some h => String.eqb h (String.append "#" active)
         | None => false
         end)
      hrefs.

(** A section whose element exists and starts at or above the scroll
    position. *)
Definition reached (dom : Layout) (scrollPos : R) (id : String.string) : bool :=
  match dom id with
  | None => false
  | Some offsetTop => if Rle_dec (IZR offsetTop) scrollPos then true else false
  end.

(** ** Tilt of cards and sections *)

(** What [getBoundingClientRect()] gives. *)
Record Rect : Type := mkRect {
  rect_left : R;
  rect_top : R;
  rect_width : R;
  rect_height : R
}.

(** The ['mousemove'] listener of a card: the angles of [rotateX] and
    [rotateY], in degrees. *)
Definition cardTilt (rect : Rect) (clientX clientY : R) : Num * Num :=
  let x := clientX - rect_left rect in
  let y := clientY - rect_top rect in
  let cx := rect_width rect / 2 in
  let cy := rect_height rect / 2 in
  let dx := Ndiv (Fin (x - cx)) (Fin cx) in
  let dy := Ndiv (Fin (y - cy)) (Fin cy) in
  (Nmul dy (Fin 6), Nmul dx (Fin 10)).

(** The ['mousemove'] listener of a section: [rx] and [ry]. *)
Definition sectionTilt (rect : Rect) (clientX clientY : R) : Num * Num :=
  let x := clientX - rect_left rect in
  let y := clientY - rect_top rect in
  let cx := rect_width rect / 2 in
  let cy := rect_height rect / 2 in
  let dx := Ndiv (Fin (x - cx)) (Fin cx) in
  let dy := Ndiv (Fin (y - cy)) (Fin cy) in
  let rx := Nmul dy (Fin 2.5) in
  let ry := Nmul dx (Fin 5) in
  (rx, ry).

(** ** Theme *)

(** The two glyphs the toggle shows. *)
Inductive Icon : Type := sun | moon.

(** Whether the body has the class ['light'], the ['theme'] item of the
    local storage, and the text of the toggle ([None]: the text of the
    markup, not written yet). *)
Record Theme : Type := mkTheme {
  light : bool;
  saved : option String.string;
  icon : option Icon
}.

(** The script's start, on a body that has the class ['light'] in the
    markup or not, with the stored item. *)
Definition themeLoad (markupLight : bool) (stored : option String.string) : Theme :=
  let isLight :=
    match stored with
    | Some v => if String.eqb v "light" then true else markupLight
    | None => markupLight
    end in
  mkTheme isLight stored (if isLight then Some sun else None).

(** The ['click'] listener of the toggle. *)
Definition themeClick (t : Theme) : Theme :=
  let nowLight := negb (light t) in
  mkTheme nowLight
          (Some (if nowLight then "light" else "dark")%string)
          (Some (if nowLight then sun else moon)).

Definition themeClicks (n : nat) (t : Theme) : Theme :=
  Nat.iter n themeClick t.

(** ** Gallery tabs *)

Record Tab : Type := mkTab {
  dataTab : option String.string;            (* dataset.tab *)
  tabActive : bool
}.

Record Collection : Type := mkCollection {
  dataCollection : option String.string;     (* dataset.collection *)
  collectionActive : bool
}.

(** [===] on two values that are a string or undefined. *)
Definition sameName (a b : option String.string) : bool :=
  match a, b with
  | Some x, Some y => String.eqb x y
  | None, None => true
  | _, _ => false
  end.

(** [t.classList.add('active')] on the [i]-th tab. *)
Fixpoint activate (i : nat) (tabs : list Tab) : list Tab :=
  match tabs, i with
  | [], _ => []
  | t :: rest, O => mkTab (dataTab t) true :: rest
  | t :: rest, S i' => t :: activate i' rest
  end.

(** The ['click'] listener of the [i]-th tab; [None] when there is no such
    tab to click. *)
Definition clickTab (i : nat) (tabs : list Tab) (cols : list Collection)
  : option (list Tab * list Collection) :=
  match nth_error tabs i with
  | None => None
  | Some t =>
      let cleared := map (fun x => mkTab (dataTab x) false) tabs in
      let name := dataTab t in
      Some (activate i cleared,
            map (fun c => mkCollection (dataCollection c)
                                       (sameName (dataCollection c) name))
                cols)
  end.

(** A layout used in the examples: 'intro' at the top, 'about' 600 pixels
    down, 'projects' at 1500, and no element for the other sections. *)
Definition sampleLayout : Layout :=
  fun id =>
    if String.eqb id "intro" then Some 0%Z
    else if String.eqb id "about" then Some 600%Z
    else if String.eqb id "projects" then Some 1500%Z
    else None.

(** The [href] of the link to a section. *)
Definition linkTo (id : String.string) : option String.string :=
  Some (String.append "#" id).

(** A star whose stored position is on canvas [c]. *)
Definition starAnchoredIn (c : Canvas) (p : Particle) : Prop :=
  match p with
  | dot _ _ _ _ _ _ => True
  | star x y _ _ _ _ _ => 0 <= x <= ofN (width c) /\ 0 <= y <= ofN (height c)
  end.

(** Tabs and collections used in the examples. *)
Definition sampleTabs : list Tab :=
  [mkTab (Some "drawings"%string) true; mkTab (Some "beaches"%string) true;
   mkTab None false].

Definition sampleCollections : list Collection :=
  [mkCollection (Some "drawings"%string) true;
   mkCollection (Some "beaches"%string) false;
   mkCollection None false].

(** ** Binary64 *)



(** ** Readings for the twinkle *)




(** ** What a tick displays *)

(** The discs the specification has a tick display for a particle, with
    the pointer at ([mX], [mY]): a dust particle at its advanced and
    wrapped position, a star as two discs at its stored position plus the
    parallax offset, with the opacity of its advanced phase. *)
Definition shown (c : Canvas) (mX mY : R) (p : Particle) : list DrawCmd :=
  match p with
  | dot x y vx vy r alpha =>
      [arc alpha (Fin (spec_wrap (width c) (x + vx)))
                 (Fin (spec_wrap (height c) (y + vy))) r]
  | star x y r twinkle twinkleSpeed baseAlpha parallax =>
      let a := spec_opacity baseAlpha (twinkle + twinkleSpeed) in
      let cx := Nadd (Fin x) (parallaxOffset mX (width c) parallax) in
      let cy := Nadd (Fin y) (parallaxOffset mY (height c) parallax) in
      [arc a cx cy (r * 1.1); arc (a * 0.6) cx cy (r * 2.6)]
  end.

(** A page with one star, used in the examples. *)
Definition oneStar : Page :=
  mkPage (mkCanvas 1400 800) 0 0 [star 3 4 1 (PI / 2 - 0.01) 0.01 0.9 0.5].

(** ** The drawing context

    What [ctx.arc] does with its arguments, as the HTML standard has it:
    with an argument that is infinite or NaN it returns and nothing is
    filled; with a negative radius it throws an IndexSizeError. *)

Inductive Painted : Type :=
| wiped (w h : N)
| disc (alpha cx cy radius : R).

(** One drawing command on the context; [None] is the exception. *)
Definition paintOne (d : DrawCmd) : option (list Painted) :=
  match d with
  | clearRect w h => Some [wiped w h]
  | arc alpha (Fin cx) (Fin cy) radius =>
      if Rlt_dec radius 0 then None else Some [disc alpha cx cy radius]
  | arc _ _ _ _ => Some []
  end.

(** The commands of a listener in their order; an exception ends it. *)
Fixpoint paint (ds : list DrawCmd) : option (list Painted) :=
  match ds with
  | [] => Some []
  | d :: rest =>
      match paintOne d, paint rest with
      | Some first, Some more => Some (first ++ more)
      | _, _ => None
      end
  end.

(** ** Readings for the free drift and the follower *)

(** A particle moved by its velocity and nothing else; a star with its
    speed added. *)
Definition drift (p : Particle) : Particle :=
  match p with
  | dot x y vx vy r alpha => dot (x + vx) (y + vy) vx vy r alpha
  | star x y r twinkle twinkleSpeed baseAlpha parallax =>
      star x y r (twinkle + twinkleSpeed) twinkleSpeed baseAlpha parallax
  end.

(** 2^20: a bound on pointer and follower coordinates, in pixels. *)
Definition screenBound : R := 1048576.

(** * Properties *)

(** ** Numbers *)

Lemma ofN_nonneg (n : N) : 0 <= ofN n.
Proof. unfold ofN. apply IZR_le. lia. Qed.

Lemma ofN_0 : ofN 0 = 0.
Proof. reflexivity. Qed.

Lemma ofN_pos (n : N) : n <> 0%N -> 0 < ofN n.
Proof. intro H. unfold ofN. apply IZR_lt. lia. Qed.

Lemma Rsign_Eq (r : R) : r = 0 -> Rsign r = Eq.
Proof.
  intro H. unfold Rsign.
  destruct (total_order_T r 0) as [[Hlt | Heq] | Hgt]; try reflexivity; lra.
Qed.

Lemma Rsign_Gt (r : R) : 0 < r -> Rsign r = Gt.
Proof.
  intro H. unfold Rsign.
  destruct (total_order_T r 0) as [[Hlt | Heq] | Hgt]; try reflexivity; lra.
Qed.

(** ** The population [createParticles] builds *)

Lemma pushLoop_app (mk : Rand Particle) (rnd : Random) :
  forall (n : nat) (ps : list Particle) (k : nat),
  exists l : list Particle,
    fst (pushLoop n mk ps rnd k) = ps ++ l /\
    length l = n /\
    forall P : Particle -> Prop,
      (forall j : nat, P (fst (mk rnd j))) -> Forall P l.
Proof.
  induction n as [| n IH]; intros ps k.
  - exists []. cbn. rewrite app_nil_r. repeat split; auto.
  - cbn [pushLoop]. unfold bind at 1.
    destruct (mk rnd k) as [p k'] eqn:Hmk.
    destruct (IH (ps ++ [p]) k') as (l & Hl & Hlen & Hall).
    exists (p :: l). rewrite Hl, <- app_assoc. cbn.
    repeat split; [now rewrite Hlen |].
    intros P HP. constructor; [| now apply Hall].
    specialize (HP k). now rewrite Hmk in HP.
Qed.

Lemma newDot_isDot (c : Canvas) (rnd : Random) (j : nat) :
  isDot (fst (newDot c rnd j)) = true.
Proof. reflexivity. Qed.

Lemma newStar_isStar (c : Canvas) (rnd : Random) (j : nat) :
  isDot (fst (newStar c rnd j)) = false.
Proof. reflexivity. Qed.

Lemma createParticles_shape (pg : Page) (rnd : Random) (k : nat) :
  exists ds ss : list Particle,
    fst (createParticles pg rnd k)
      = mkPage (canvas pg) (mouseX pg) (mouseY pg) (ds ++ ss) /\
    length ds = N.to_nat (dotCount (canvas pg)) /\
    length ss = N.to_nat (starCountOf (canvas pg)) /\
    (forall P : Particle -> Prop,
        (forall j : nat, P (fst (newDot (canvas pg) rnd j))) -> Forall P ds) /\
    (forall P : Particle -> Prop,
        (forall j : nat, P (fst (newStar (canvas pg) rnd j))) -> Forall P ss).
Proof.
  unfold createParticles, bind.
  destruct (pushLoop_app (newDot (canvas pg)) rnd
              (N.to_nat (dotCount (canvas pg))) [] k) as (ds & Hds & Hlen1 & Hall1).
  destruct (pushLoop (N.to_nat (dotCount (canvas pg))) (newDot (canvas pg)) [] rnd k)
    as [ps1 k1] eqn:H1.
  cbn in Hds. subst ps1.
  destruct (pushLoop_app (newStar (canvas pg)) rnd
              (N.to_nat (starCountOf (canvas pg))) ds k1) as (ss & Hss & Hlen2 & Hall2).
  destruct (pushLoop (N.to_nat (starCountOf (canvas pg))) (newStar (canvas pg)) ds rnd k1)
    as [ps2 k2] eqn:H2.
  cbn in Hss. subst ps2.
  exists ds, ss. cbn. repeat split; assumption.
Qed.

Lemma filter_all_true {A : Type} (f : A -> bool) (l : list A) :
  Forall (fun a => f a = true) l -> filter f l = l.
Proof.
  induction 1 as [| a l Ha _ IH]; cbn; [reflexivity |].
  now rewrite Ha, IH.
Qed.

Lemma filter_all_false {A : Type} (f : A -> bool) (l : list A) :
  Forall (fun a => f a = false) l -> filter f l = [].
Proof.
  induction 1 as [| a l Ha _ IH]; cbn; [reflexivity |].
  now rewrite Ha, IH.
Qed.

Lemma createParticles_counts (pg : Page) (rnd : Random) (k : nat) :
  dustCount (particles (fst (createParticles pg rnd k)))
    = N.to_nat (dotCount (canvas pg)) /\
  starCount (particles (fst (createParticles pg rnd k)))
    = N.to_nat (starCountOf (canvas pg)).
Proof.
  destruct (createParticles_shape pg rnd k) as (ds & ss & Heq & Hl1 & Hl2 & Hd & Hs).
  rewrite Heq. cbn [particles]. unfold dustCount, starCount.
  rewrite !filter_app, !length_app.
  assert (Forall (fun p => isDot p = true) ds) as Hdd
      by (apply Hd; intro j; apply newDot_isDot).
  assert (Forall (fun p => isDot p = false) ss) as Hss
      by (apply Hs; intro j; apply newStar_isStar).
  rewrite (filter_all_true isDot ds Hdd), (filter_all_false isDot ss Hss).
  rewrite (filter_all_false isStar ds), (filter_all_true isStar ss).
  - cbn. rewrite Hl1, Hl2. split; lia.
  - eapply Forall_impl; [| exact Hss]. unfold isStar. now intros p ->.
  - eapply Forall_impl; [| exact Hdd]. unfold isStar. now intros p ->.
Qed.

Lemma boot_canvas (iw ih : N) (rnd : Random) :
  canvas (boot iw ih rnd) = mkCanvas iw ih.
Proof.
  unfold boot.
  destruct (createParticles_shape
              (resizeCanvas iw ih (mkPage (mkCanvas 0 0) 0 0 [])) rnd 0)
    as (ds & ss & Heq & _).
  now rewrite Heq.
Qed.

(** C2: immediately after [createParticles] has run on a canvas of area
    A = width * height, the population holds max(30, floor(A/140000)) dust
    particles and max(70, floor(A/60000)) stars; on a 1400x800 canvas that
    is 30 and 70, on a 2800x1600 canvas 32 and 74. *)
Theorem createParticles_population (pg : Page) (rnd : Random) (k : nat) :
  let A := (width (canvas pg) * height (canvas pg))%N in
  (N.of_nat (dustCount (particles (fst (createParticles pg rnd k))))
     = N.max 30 (A / 140000) /\
   N.of_nat (starCount (particles (fst (createParticles pg rnd k))))
     = N.max 70 (A / 60000)) /\
  (dustCount (particles (boot 1400 800 rnd)) = 30%nat /\
   starCount (particles (boot 1400 800 rnd)) = 70%nat) /\
  (dustCount (particles (boot 2800 1600 rnd)) = 32%nat /\
   starCount (particles (boot 2800 1600 rnd)) = 74%nat).
Proof.
  cbv zeta. split; [| split].
  - destruct (createParticles_counts pg rnd k) as [Hd Hs].
    rewrite Hd, Hs, !N2Nat.id. split; reflexivity.
  - unfold boot. apply createParticles_counts.
  - unfold boot. apply createParticles_counts.
Qed.

(** C1, as the specification states it, fails: the ['resize'] listener is
    [resizeCanvas], which does not touch [particles].  A page loaded at
    1400x800 and resized to 2800x1600 still has its 30 dust particles and
    70 stars, where the claim requires 32 and 74. *)
Lemma resize_does_not_regenerate :
  let before := boot 1400 800 sampleRandom in
  let after := fst (handle before (resize 2800 1600)) in
  canvas after = mkCanvas 2800 1600 /\
  particles after = particles before /\
  N.of_nat (dustCount (particles after)) = 30%N /\
  N.max 30 ((2800 * 1600) / 140000) = 32%N /\
  N.of_nat (starCount (particles after)) = 70%N /\
  N.max 70 ((2800 * 1600) / 60000) = 74%N.
Proof.
  cbv zeta. cbn [handle fst resizeCanvas canvas particles].
  unfold boot.
  destruct (createParticles_counts
              (resizeCanvas 1400 800 (mkPage (mkCanvas 0 0) 0 0 [])) sampleRandom 0)
    as [Hd Hs].
  rewrite Hd, Hs. repeat split.
Qed.

(** C1, amended: every run of [createParticles] discards the whole
    population and builds a new one for the canvas dimensions of that
    moment: max(30, floor(w*h/140000)) dust particles followed by
    max(70, floor(w*h/60000)) stars and nothing else, whatever the
    population was before.  A viewport-resize notification runs
    [resizeCanvas] only: it stores the new dimensions, draws nothing and
    leaves the population as it is. *)
Theorem createParticles_regenerates (pg : Page) (rnd : Random) (k : nat) :
  let c := canvas pg in
  let fresh := particles (fst (createParticles pg rnd k)) in
  (N.of_nat (dustCount fresh) = N.max 30 ((width c * height c) / 140000) /\
   N.of_nat (starCount fresh) = N.max 70 ((width c * height c) / 60000) /\
   length fresh = (dustCount fresh + starCount fresh)%nat /\
   forall old : list Particle,
     particles (fst (createParticles
                       (mkPage c (mouseX pg) (mouseY pg) old) rnd k)) = fresh) /\
  (forall iw ih : N,
     handle pg (resize iw ih)
       = (mkPage (mkCanvas iw ih) (mouseX pg) (mouseY pg) (particles pg), [])).
Proof.
  cbv zeta. split; [| reflexivity].
  destruct (createParticles_counts pg rnd k) as [Hd Hs].
  rewrite Hd, Hs, !N2Nat.id. repeat split.
  destruct (createParticles_shape pg rnd k) as (ds & ss & Heq & Hl1 & Hl2 & _).
  rewrite Heq. cbn [particles]. rewrite length_app. lia.
Qed.

(** ** Runs of the page *)

Lemma run_cons (e : Event) (evs : list Event) (pg : Page) :
  run (e :: evs) pg = run evs (fst (handle pg e)).
Proof. reflexivity. Qed.

Lemma handle_frame_particles (pg : Page) :
  particles (fst (handle pg frame))
    = map (fun p => fst (drawParticle (canvas pg) (mouseX pg) (mouseY pg) p))
          (particles pg).
Proof. cbn. now rewrite map_map. Qed.


(** A reading of the particles that no loop body changes is the same after
    any run. *)
Lemma run_preserves {A : Type} (f : Particle -> A) :
  (forall c mX mY p, f (fst (drawParticle c mX mY p)) = f p) ->
  forall (evs : list Event) (pg : Page),
    map f (particles (run evs pg)) = map f (particles pg).
Proof.
  intros Hf. induction evs as [| e evs IH]; intro pg; [reflexivity |].
  rewrite run_cons, IH. destruct e.
  - reflexivity.
  - reflexivity.
  - rewrite handle_frame_particles, map_map.
    apply map_ext. intro p. apply Hf.
Qed.

Lemma Forall_map_eq {A B : Type} (f : A -> B) (P : B -> Prop) (l l' : list A) :
  map f l = map f l' -> Forall (fun a => P (f a)) l' -> Forall (fun a => P (f a)) l.
Proof.
  intros Heq H. apply Forall_map. rewrite Heq. now apply Forall_map.
Qed.

(** ** Dust *)

Lemma wrap_spec (edge : N) (v : R) : wrap edge v = spec_wrap edge v.
Proof.
  unfold wrap, spec_wrap. pose proof (ofN_nonneg edge) as He.
  destruct (Rlt_dec v (-50)) as [Hlo | Hlo].
  - destruct (Rgt_dec (ofN edge + 20) (ofN edge + 50)) as [Hhi | Hhi];
      [lra | reflexivity].
  - reflexivity.
Qed.

Lemma wrap_range (edge : N) (v : R) : -50 <= wrap edge v <= ofN edge + 50.
Proof.
  rewrite wrap_spec. unfold spec_wrap. pose proof (ofN_nonneg edge) as He.
  destruct (Rlt_dec v (-50)); [lra |].
  destruct (Rgt_dec v (ofN edge + 50)); lra.
Qed.

Lemma wrap_fired (edge : N) (v : R) :
  v < -50 \/ v > ofN edge + 50 -> -20 <= wrap edge v <= ofN edge + 20.
Proof.
  intro H. rewrite wrap_spec. unfold spec_wrap. pose proof (ofN_nonneg edge) as He.
  destruct (Rlt_dec v (-50)); [lra |].
  destruct (Rgt_dec v (ofN edge + 50)); lra.
Qed.

Lemma ofN_le (a b : N) : (a <= b)%N -> ofN a <= ofN b.
Proof. intro H. unfold ofN. apply IZR_le. lia. Qed.

Lemma drawParticle_dotAttrs (c : Canvas) (mX mY : R) (p : Particle) :
  dotAttrs (fst (drawParticle c mX mY p)) = dotAttrs p.
Proof. destruct p; reflexivity. Qed.

Lemma drawParticle_velocity (c : Canvas) (mX mY : R) (p : Particle) :
  velocity (fst (drawParticle c mX mY p)) = velocity p.
Proof. destruct p; reflexivity. Qed.

Lemma drawParticle_starAttrs (c : Canvas) (mX mY : R) (p : Particle) :
  starAttrs (fst (drawParticle c mX mY p)) = starAttrs p.
Proof. destruct p; reflexivity. Qed.


Lemma drawParticle_within (c : Canvas) (mX mY : R) (W H : N) (p : Particle) :
  (width c <= W)%N -> (height c <= H)%N ->
  dustWithin W H (fst (drawParticle c mX mY p)).
Proof.
  intros HW HH. destruct p as [x y vx vy r a | x y r tw sp ba par]; cbn; [| exact I].
  pose proof (wrap_range (width c) (x + vx)).
  pose proof (wrap_range (height c) (y + vy)).
  pose proof (ofN_le _ _ HW). pose proof (ofN_le _ _ HH). lra.
Qed.

Lemma run_within (W H : N) :
  forall (evs : list Event) (pg : Page),
    (width (canvas pg) <= W)%N -> (height (canvas pg) <= H)%N ->
    Forall (resizeWithin W H) evs ->
    Forall (dustWithin W H) (particles pg) ->
    (width (canvas (run evs pg)) <= W)%N /\
    (height (canvas (run evs pg)) <= H)%N /\
    Forall (dustWithin W H) (particles (run evs pg)).
Proof.
  induction evs as [| e evs IH]; intros pg HW HH Hevs Hps; [auto |].
  rewrite run_cons. inversion Hevs as [| e' evs' He Hevs']; subst.
  destruct e as [iw ih | cx cy |].
  - destruct He as [Hiw Hih]. apply IH; auto.
  - apply IH; auto.
  - apply IH; auto.
    rewrite handle_frame_particles. apply Forall_map, Forall_forall.
    intros p _. now apply drawParticle_within.
Qed.

(** ** The population of a freshly loaded page *)

Lemma boot_Forall (iw ih : N) (rnd : Random) (P : Particle -> Prop) :
  (forall j : nat, P (fst (newDot (mkCanvas iw ih) rnd j))) ->
  (forall j : nat, P (fst (newStar (mkCanvas iw ih) rnd j))) ->
  Forall P (particles (boot iw ih rnd)).
Proof.
  intros Hd Hs. unfold boot.
  destruct (createParticles_shape
              (resizeCanvas iw ih (mkPage (mkCanvas 0 0) 0 0 [])) rnd 0)
    as (ds & ss & Heq & _ & _ & Hds & Hss).
  rewrite Heq. cbn [particles]. apply Forall_app. split.
  - apply Hds. exact Hd.
  - apply Hss. exact Hs.
Qed.

Lemma sampleRandom_unit : unit_interval sampleRandom.
Proof.
  intro k. unfold sampleRandom. pose proof (pos_INR k) as Hk.
  assert (0 < INR k + 2) as Hpos by lra.
  split.
  - left. now apply Rinv_0_lt_compat.
  - rewrite <- Rinv_1. apply Rinv_lt_contravar; lra.
Qed.

Lemma scaled_within (u : R) (edge : N) :
  0 <= u < 1 -> 0 <= u * ofN edge <= ofN edge.
Proof. intro Hu. pose proof (ofN_nonneg edge). nra. Qed.

Lemma boot_within (iw ih : N) (rnd : Random) :
  unit_interval rnd -> Forall (dustWithin iw ih) (particles (boot iw ih rnd)).
Proof.
  intro Hu. apply boot_Forall; intro j; cbn; [| exact I].
  pose proof (scaled_within (rnd j) iw (Hu j)).
  pose proof (scaled_within (rnd (S j)) ih (Hu (S j))). lra.
Qed.

Lemma boot_velocity (iw ih : N) (rnd : Random) :
  unit_interval rnd ->
  Forall (fun p => velocityInRange (velocity p)) (particles (boot iw ih rnd)).
Proof.
  intro Hu. apply boot_Forall; intros j vx vy Hv; cbn in Hv; [| discriminate].
  injection Hv as <- <-.
  pose proof (Hu (S (S j))). pose proof (Hu (S (S (S j)))). lra.
Qed.

(** C3: a tick advances every dust particle by its velocity and then wraps
    each coordinate on its own: below -50 it becomes the edge length plus
    20, above the edge length plus 50 it becomes -20.  A particle at
    x = width + 60 with vx = 0 is at x = -20 after one tick. *)
Theorem dust_tick (c : Canvas) (mX mY x y vx vy r alpha : R) :
  (forall pg : Page,
      particles (fst (handle pg frame))
        = map (fun p => fst (drawParticle (canvas pg) (mouseX pg) (mouseY pg) p))
              (particles pg)) /\
  fst (drawParticle c mX mY (dot x y vx vy r alpha))
    = dot (spec_wrap (width c) (x + vx)) (spec_wrap (height c) (y + vy))
          vx vy r alpha /\
  p_x (fst (drawParticle c mX mY (dot (ofN (width c) + 60) y 0 vy r alpha))) = -20.
Proof.
  split; [exact handle_frame_particles | split].
  - cbn. now rewrite !wrap_spec.
  - cbn. rewrite wrap_spec. unfold spec_wrap.
    destruct (Rlt_dec (ofN (width c) + 60 + 0) (-50)) as [Hlo | Hlo].
    + pose proof (ofN_nonneg (width c)). lra.
    + destruct (Rgt_dec (ofN (width c) + 60 + 0) (ofN (width c) + 50)); [reflexivity | lra].
Qed.

(** C4: on every page the script can reach, a dust coordinate on which a
    wrap fires in a tick is within [-20, edge + 20] after that tick, every
    dust coordinate is within [-50, edge + 50] after a tick, and over any
    run whose canvas never exceeds W x H every dust particle stays in
    [-50, W + 50] x [-50, H + 50]. *)
Theorem dust_stays_bounded (rnd : Random) (iw ih W H : N) (evs : list Event) :
  unit_interval rnd ->
  (iw <= W)%N -> (ih <= H)%N ->
  Forall (resizeWithin W H) evs ->
  let pg := run evs (boot iw ih rnd) in
  Forall (dustWithin W H) (particles pg) /\
  forall x y vx vy r alpha : R,
    In (dot x y vx vy r alpha) (particles pg) ->
    let p' := fst (drawParticle (canvas pg) (mouseX pg) (mouseY pg)
                     (dot x y vx vy r alpha)) in
    (x + vx < -50 \/ x + vx > ofN (width (canvas pg)) + 50 ->
     -20 <= p_x p' <= ofN (width (canvas pg)) + 20) /\
    (y + vy < -50 \/ y + vy > ofN (height (canvas pg)) + 50 ->
     -20 <= p_y p' <= ofN (height (canvas pg)) + 20) /\
    -50 <= p_x p' <= ofN (width (canvas pg)) + 50 /\
    -50 <= p_y p' <= ofN (height (canvas pg)) + 50.
Proof.
  intros Hu Hiw Hih Hevs pg. split.
  - apply (run_within W H evs (boot iw ih rnd)); auto.
    + now rewrite boot_canvas.
    + now rewrite boot_canvas.
    + eapply Forall_impl; [| apply (boot_within iw ih rnd Hu)].
      intros [x y vx vy r a | ]; cbn; [| auto].
      pose proof (ofN_le _ _ Hiw). pose proof (ofN_le _ _ Hih). lra.
  - intros x y vx vy r alpha _. cbn.
    repeat split; try apply wrap_fired; try apply wrap_range; assumption.
Qed.

Lemma dust_stays_bounded_witness :
  Forall (dustWithin 2800 1600)
    (particles (run [frame; resize 2800 1600; mousemove 10 20; frame]
                    (boot 1400 800 sampleRandom))).
Proof.
  apply (dust_stays_bounded sampleRandom 1400 800 2800 1600
           [frame; resize 2800 1600; mousemove 10 20; frame]).
  - exact sampleRandom_unit.
  - lia.
  - lia.
  - repeat constructor; cbn; lia.
Defined.

(** C10: no tick writes the velocity of a dust particle (nor its radius or
    opacity): on every page the script can reach the dust particles have
    the velocities [createParticles] gave them, with vx in [-0.15, 0.15)
    and vy in [-0.3, 0.3), and a tick moves each by exactly that
    velocity before wrapping. *)
Theorem dust_velocity_constant (rnd : Random) (iw ih : N) (evs : list Event) :
  unit_interval rnd ->
  let pg := run evs (boot iw ih rnd) in
  map dotAttrs (particles pg) = map dotAttrs (particles (boot iw ih rnd)) /\
  Forall (fun p => velocityInRange (velocity p)) (particles pg) /\
  forall x y vx vy r alpha : R,
    In (dot x y vx vy r alpha) (particles pg) ->
    fst (drawParticle (canvas pg) (mouseX pg) (mouseY pg) (dot x y vx vy r alpha))
      = dot (wrap (width (canvas pg)) (x + vx)) (wrap (height (canvas pg)) (y + vy))
            vx vy r alpha.
Proof.
  intros Hu pg. split; [| split].
  - apply run_preserves. exact drawParticle_dotAttrs.
  - apply (Forall_map_eq velocity velocityInRange _ (particles (boot iw ih rnd))).
    + apply run_preserves. exact drawParticle_velocity.
    + now apply boot_velocity.
  - reflexivity.
Qed.

Lemma dust_velocity_constant_witness :
  map dotAttrs (particles (run [frame; resize 640 480; frame]
                               (boot 1400 800 sampleRandom)))
    = map dotAttrs (particles (boot 1400 800 sampleRandom)).
Proof.
  apply (dust_velocity_constant sampleRandom 1400 800 [frame; resize 640 480; frame]).
  exact sampleRandom_unit.
Defined.

(** ** Stars *)





(** C6: no tick writes the position of a star.  Over any run every star
    keeps its x and y (and everything else but the twinkle phase); a tick
    returns the star with only the phase advanced and draws its two discs
    at the stored position plus the parallax offset. *)
Theorem star_anchor_fixed (evs : list Event) (pg : Page) :
  map starAttrs (particles (run evs pg)) = map starAttrs (particles pg) /\
  forall (c : Canvas) (mX mY x y r tw sp ba par : R),
    drawParticle c mX mY (star x y r tw sp ba par)
      = (star x y r (tw + sp) sp ba par,
         let a := spec_opacity ba (tw + sp) in
         let cx := Nadd (Fin x) (parallaxOffset mX (width c) par) in
         let cy := Nadd (Fin y) (parallaxOffset mY (height c) par) in
         [arc a cx cy (r * 1.1); arc (a * 0.6) cx cy (r * 2.6)]).
Proof.
  split.
  - apply run_preserves. exact drawParticle_starAttrs.
  - reflexivity.
Qed.

Lemma spec_opacity_le_1 (ba phase : R) : spec_opacity ba phase <= 1.
Proof. unfold spec_opacity. apply Rmin_l. Qed.

(** ** Parallax *)

Lemma parallaxOffset_finite (mouse : R) (edge : N) (par : R) :
  edge <> 0%N ->
  parallaxOffset mouse edge par = Fin (spec_offset mouse edge par).
Proof.
  intro He. unfold parallaxOffset, spec_offset. cbn [Ndiv].
  rewrite (Rsign_Gt (ofN edge) (ofN_pos edge He)). cbn.
  f_equal; ring.
Qed.

Lemma spec_offset_centre (edge : N) (par : R) :
  edge <> 0%N -> spec_offset (ofN edge / 2) edge par = 0.
Proof.
  intro He. unfold spec_offset. pose proof (ofN_pos edge He) as Hpos.
  assert (ofN edge / 2 / ofN edge = 1 / 2) as Hhalf by (field; lra).
  rewrite Hhalf. lra.
Qed.

(** On an edge of length zero the division gives no finite number, and
    neither does the offset. *)
Lemma parallaxOffset_zero_edge (mouse par : R) :
  exists s : comparison, parallaxOffset mouse 0 par = signed_inf s.
Proof.
  unfold parallaxOffset. cbn [Ndiv]. rewrite (Rsign_Eq (ofN 0) ofN_0).
  assert (Rsign 30 = Gt) as H30 by (apply Rsign_Gt; lra).
  destruct (Rsign mouse); cbn; rewrite ?H30; cbn.
  - exists Eq. reflexivity.
  - exists (CompOpp (Rsign par)). reflexivity.
  - exists (Rsign par). reflexivity.
Qed.

(** C8, as the specification states it, fails on a canvas of width and
    height zero: the pointer at (0, 0) is at the exact centre, the
    division 0 / 0 gives NaN, and the offset of the star is (NaN, NaN),
    not (0, 0). *)
Lemma centre_offset_on_empty_canvas :
  let c := mkCanvas 0 0 in
  let mX := ofN (width c) / 2 in
  let mY := ofN (height c) / 2 in
  parallaxOffset mX (width c) 0.5 = NaN /\
  parallaxOffset mY (height c) 0.5 = NaN /\
  NaN <> Fin 0 /\
  (exists a : R,
    snd (drawParticle c mX mY (star 3 4 1 0 0.01 0.5 0.5))
      = [arc a NaN NaN (1 * 1.1); arc (a * 0.6) NaN NaN (1 * 2.6)]) /\
  exists a : R,
    snd (handle (fst (handle (mkPage c 5 5 [star 3 4 1 0 0.01 0.5 0.5])
                             (mousemove mX mY)))
                frame)
      = [clearRect 0 0; arc a NaN NaN (1 * 1.1); arc (a * 0.6) NaN NaN (1 * 2.6)].
Proof.
  cbv zeta. cbn [width height].
  assert (parallaxOffset (ofN 0 / 2) 0 0.5 = NaN) as Hoff.
  { unfold parallaxOffset. cbn [Ndiv]. rewrite (Rsign_Eq (ofN 0) ofN_0).
    rewrite (Rsign_Eq (ofN 0 / 2)) by (rewrite ofN_0; lra). reflexivity. }
  split; [exact Hoff |]. split; [exact Hoff |]. split; [discriminate |]. split.
  - eexists. cbn [drawParticle snd width height]. rewrite Hoff. reflexivity.
  - eexists.
    cbn [handle fst snd drawParticles canvas mouseX mouseY particles map concat
         drawParticle width height app].
    rewrite Hoff. reflexivity.
Qed.

(** ** Degenerate canvases *)

Lemma pushLoop_first_two (mk : Rand Particle) (rnd : Random) (n k : nat) :
  exists rest : list Particle,
    fst (pushLoop (S (S n)) mk [] rnd k)
      = fst (mk rnd k) :: fst (mk rnd (snd (mk rnd k))) :: rest.
Proof.
  cbn [pushLoop]. unfold bind at 1.
  destruct (mk rnd k) as [p k1]. unfold bind at 1. cbn [fst snd].
  destruct (mk rnd k1) as [q k2].
  destruct (pushLoop_app mk rnd n (([] ++ [p]) ++ [q]) k2) as (l & Hl & _).
  exists l. exact Hl.
Qed.

Lemma boot_first_two (iw ih : N) (rnd : Random) :
  exists rest : list Particle,
    particles (boot iw ih rnd)
      = fst (newDot (mkCanvas iw ih) rnd 0%nat)
        :: fst (newDot (mkCanvas iw ih) rnd 6%nat) :: rest.
Proof.
  unfold boot, createParticles. unfold bind at 1.
  cbn [resizeCanvas canvas mouseX mouseY particles].
  assert (exists n, N.to_nat (dotCount (mkCanvas iw ih)) = S (S n)) as [n Hn].
  { exists (N.to_nat (dotCount (mkCanvas iw ih)) - 2)%nat.
    unfold dotCount. lia. }
  rewrite Hn.
  destruct (pushLoop_first_two (newDot (mkCanvas iw ih)) rnd n 0%nat) as (l & Hl).
  change (snd (newDot (mkCanvas iw ih) rnd 0%nat)) with 6%nat in Hl.
  destruct (pushLoop (S (S n)) (newDot (mkCanvas iw ih)) [] rnd 0%nat) as [ps1 k1].
  cbn [fst] in Hl. subst ps1. unfold bind.
  destruct (pushLoop_app (newStar (mkCanvas iw ih)) rnd
              (N.to_nat (starCountOf (mkCanvas iw ih)))
              (fst (newDot (mkCanvas iw ih) rnd 0%nat)
                 :: fst (newDot (mkCanvas iw ih) rnd 6%nat) :: l) k1)
    as (ss & Hss & _).
  destruct (pushLoop (N.to_nat (starCountOf (mkCanvas iw ih)))
              (newStar (mkCanvas iw ih)) _ rnd k1) as [ps2 k2].
  cbn [fst] in Hss. subst ps2. cbn [fst particles].
  exists (l ++ ss). reflexivity.
Qed.

Lemma run_length (evs : list Event) (pg : Page) :
  length (particles (run evs pg)) = length (particles pg).
Proof.
  rewrite <- (length_map (fun _ : Particle => tt) (particles (run evs pg))).
  rewrite (run_preserves (fun _ => tt)) by reflexivity.
  apply length_map.
Qed.

(** C9, as the specification states it, fails: a canvas of width 0 and
    height 800 has area zero, but its particles are not all at one
    position.  The first two dust particles are at y = 800/3 and
    y = 800/9. *)
Lemma zero_area_positions_differ :
  let pg := boot 0 800 sampleRandom in
  (width (canvas pg) * height (canvas pg) = 0)%N /\
  exists (p q : Particle) (rest : list Particle),
    particles pg = p :: q :: rest /\
    p_x p = 0 /\ p_y p = 800 / 3 /\
    p_x q = 0 /\ p_y q = 800 / 9 /\
    (p_x p, p_y p) <> (p_x q, p_y q).
Proof.
  cbv zeta. split; [now rewrite boot_canvas |].
  destruct (boot_first_two 0 800 sampleRandom) as (rest & Hrest).
  exists (fst (newDot (mkCanvas 0 800) sampleRandom 0%nat)),
         (fst (newDot (mkCanvas 0 800) sampleRandom 6%nat)), rest.
  split; [exact Hrest |].
  cbn [newDot bind Math_random ret fst snd p_x p_y width height].
  unfold sampleRandom, ofN. cbn [Z.of_N INR].
  assert (forall a b : R, a = 0 -> b = 800 / 3 -> (a, b) <> (0, 800 / 9)) as Hne.
  { intros a b -> -> Heq. injection Heq as Heq. lra. }
  assert (/ (0 + 2) * 0 = 0) as H1 by lra.
  assert (/ (1 + 2) * 800 = 800 / 3) as H2 by lra.
  assert (/ (1 + 1 + 1 + 1 + 1 + 1 + 2) * 0 = 0) as H3 by lra.
  assert (/ (1 + 1 + 1 + 1 + 1 + 1 + 1 + 2) * 800 = 800 / 9) as H4 by lra.
  rewrite H3, H4. repeat split; auto.
Qed.


(** * Further properties of the particle code *)

Lemma pushLoop_closed (mk : Rand Particle) (cost : nat) (rnd : Random) :
  (forall k : nat, snd (mk rnd k) = (k + cost)%nat) ->
  forall (n : nat) (ps : list Particle) (k : nat),
    pushLoop n mk ps rnd k
      = (ps ++ map (fun i => fst (mk rnd (k + cost * i)%nat)) (seq 0 n),
         (k + cost * n)%nat).
Proof.
  intro Hcost. induction n as [| n IH]; intros ps k.
  - cbn [pushLoop seq map]. unfold ret. rewrite app_nil_r. f_equal. lia.
  - cbn [pushLoop]. unfold bind at 1.
    specialize (Hcost k). destruct (mk rnd k) as [p k1] eqn:Hmk.
    cbn [snd] in Hcost. subst k1. rewrite IH, <- app_assoc. f_equal.
    + f_equal. cbn [seq map app]. f_equal.
      * replace (k + cost * 0)%nat with k by lia. now rewrite Hmk.
      * rewrite <- seq_shift, map_map. apply map_ext. intro i.
        f_equal. f_equal. lia.
    + lia.
Qed.

(** X1: [createParticles] in closed form.  It calls [Math.random] six
    times per dust particle and seven times per star, in that order, so the
    i-th dust particle is built from draws k+6i .. k+6i+5, the j-th star
    from the seven draws that start at k+6*dots+7j, and 6*dots + 7*stars
    values are consumed in all. *)
Theorem population_closed_form (pg : Page) (rnd : Random) (k : nat) :
  let c := canvas pg in
  let nd := N.to_nat (dotCount c) in
  let ns := N.to_nat (starCountOf c) in
  particles (fst (createParticles pg rnd k))
    = map (fun i => fst (newDot c rnd (k + 6 * i)%nat)) (seq 0 nd)
      ++ map (fun j => fst (newStar c rnd (k + 6 * nd + 7 * j)%nat)) (seq 0 ns) /\
  snd (createParticles pg rnd k) = (k + 6 * nd + 7 * ns)%nat.
Proof.
  cbv zeta.
  assert (createParticles pg rnd k
          = (mkPage (canvas pg) (mouseX pg) (mouseY pg)
               (map (fun i => fst (newDot (canvas pg) rnd (k + 6 * i)%nat))
                    (seq 0 (N.to_nat (dotCount (canvas pg))))
                ++ map (fun j => fst (newStar (canvas pg) rnd
                                        (k + 6 * N.to_nat (dotCount (canvas pg)) + 7 * j)%nat))
                       (seq 0 (N.to_nat (starCountOf (canvas pg))))),
             (k + 6 * N.to_nat (dotCount (canvas pg))
                + 7 * N.to_nat (starCountOf (canvas pg)))%nat)) as Heq.
  { unfold createParticles. unfold bind at 1.
    rewrite (pushLoop_closed (newDot (canvas pg)) 6 rnd) by (intro j; cbn; lia).
    unfold bind at 1.
    rewrite (pushLoop_closed (newStar (canvas pg)) 7 rnd) by (intro j; cbn; lia).
    reflexivity. }
  rewrite Heq. split; reflexivity.
Qed.

Lemma map_const_repeat {A B : Type} (f : A -> B) (b : B) (l : list A) :
  Forall (fun a => f a = b) l -> map f l = repeat b (length l).
Proof.
  induction 1 as [| a l Ha _ IH]; cbn; [reflexivity |].
  now rewrite Ha, IH.
Qed.

Lemma drawParticle_isDot (c : Canvas) (mX mY : R) (p : Particle) :
  isDot (fst (drawParticle c mX mY p)) = isDot p.
Proof. destruct p; reflexivity. Qed.

(** X2: the population never changes its size or its order after the page
    has loaded.  Whatever resizes, pointer moves and frames follow, the
    array holds the dust particles first and the stars after them, as many
    of each as the window size at load time called for. *)
Theorem population_kinds_fixed (iw ih : N) (rnd : Random) (evs : list Event) :
  map isDot (particles (run evs (boot iw ih rnd)))
    = repeat true (N.to_nat (dotCount (mkCanvas iw ih)))
      ++ repeat false (N.to_nat (starCountOf (mkCanvas iw ih))).
Proof.
  rewrite (run_preserves isDot drawParticle_isDot). unfold boot.
  destruct (createParticles_shape
              (resizeCanvas iw ih (mkPage (mkCanvas 0 0) 0 0 [])) rnd 0)
    as (ds & ss & Heq & Hl1 & Hl2 & Hd & Hs).
  rewrite Heq. cbn [particles]. rewrite map_app.
  rewrite (map_const_repeat isDot true ds)
    by (apply Hd; intro j; apply newDot_isDot).
  rewrite (map_const_repeat isDot false ss)
    by (apply Hs; intro j; apply newStar_isStar).
  now rewrite Hl1, Hl2.
Qed.

Lemma drawn_length (c : Canvas) (mX mY : R) (ps : list Particle) :
  length (concat (map snd (map (drawParticle c mX mY) ps)))
    = (dustCount ps + 2 * starCount ps)%nat.
Proof.
  unfold dustCount, starCount.
  induction ps as [| p ps IH]; [reflexivity |].
  cbn [map concat]. rewrite length_app, IH.
  destruct p; cbn; lia.
Qed.

(** X3: what a frame draws.  It clears the whole canvas first and then
    draws one disc for every dust particle and two for every star; the
    other listeners draw nothing. *)
Theorem frame_drawing_shape (pg : Page) :
  (exists discs : list DrawCmd,
      snd (handle pg frame)
        = clearRect (width (canvas pg)) (height (canvas pg)) :: discs /\
      length discs
        = (dustCount (particles pg) + 2 * starCount (particles pg))%nat /\
      Forall (fun d => exists a cx cy r, d = arc a cx cy r) discs) /\
  forall e : Event, isFrame e = false -> snd (handle pg e) = [].
Proof.
  split.
  - eexists. split; [reflexivity | split].
    + apply drawn_length.
    + induction (particles pg) as [| p ps IH]; [constructor |].
      cbn [map concat]. apply Forall_app. split; [| exact IH].
      destruct p; cbn; repeat constructor; repeat eexists.
  - intros [iw ih | cx cy |] He; [reflexivity | reflexivity | discriminate].
Qed.

Lemma run_Forall_stable (P : Particle -> Prop) :
  (forall c mX mY p, P p -> P (fst (drawParticle c mX mY p))) ->
  forall (evs : list Event) (pg : Page),
    Forall P (particles pg) -> Forall P (particles (run evs pg)).
Proof.
  intros HP. induction evs as [| e evs IH]; intros pg Hpg; [exact Hpg |].
  rewrite run_cons. apply IH. destruct e.
  - exact Hpg.
  - exact Hpg.
  - rewrite handle_frame_particles. apply Forall_map.
    eapply Forall_impl; [| exact Hpg]. intros p Hp. now apply HP.
Qed.

Lemma boot_looks (iw ih : N) (rnd : Random) :
  unit_interval rnd -> Forall looksInRange (particles (boot iw ih rnd)).
Proof.
  intro Hu. apply boot_Forall; intro j; cbn.
  - pose proof (Hu (S (S (S (S j))))). pose proof (Hu (S (S (S (S (S j)))))). lra.
  - pose proof (Hu (S (S j))). pose proof (Hu (S (S (S (S (S j)))))).
    pose proof (Hu (S (S (S (S (S (S j))))))). lra.
Qed.

Lemma run_looks (iw ih : N) (rnd : Random) (evs : list Event) :
  unit_interval rnd -> Forall looksInRange (particles (run evs (boot iw ih rnd))).
Proof.
  intro Hu. apply run_Forall_stable; [| now apply boot_looks].
  intros c mX mY [x y vx vy r a | x y r tw sp ba par] Hp; exact Hp.
Qed.

(** X4: on every page the script can reach, a dust particle has a radius
    in [0.2, 2.2] and an opacity in [0.03, 0.15], and a star has a radius in
    [0.4, 2], a base opacity in [0.15, 0.95] and a parallax factor in
    [0.2, 1]: the values [createParticles] drew, which nothing writes. *)
Theorem particle_looks_in_range (rnd : Random) (iw ih : N) (evs : list Event) :
  unit_interval rnd ->
  Forall looksInRange (particles (run evs (boot iw ih rnd))).
Proof. intro Hu. now apply run_looks. Qed.

Lemma particle_looks_in_range_witness :
  Forall looksInRange
    (particles (run [frame; resize 320 480; frame] (boot 1400 800 sampleRandom))).
Proof.
  apply (particle_looks_in_range sampleRandom 1400 800 [frame; resize 320 480; frame]).
  exact sampleRandom_unit.
Defined.

Lemma drawParticle_visible (c : Canvas) (mX mY : R) (p : Particle) :
  looksInRange p -> Forall drawnVisible (snd (drawParticle c mX mY p)).
Proof.
  destruct p as [x y vx vy r a | x y r tw sp ba par]; cbn [looksInRange].
  - intros [Hr Ha]. cbn [drawParticle snd].
    constructor; [cbn; lra | constructor].
  - intros (Hr & Hba & Hpar). cbn [drawParticle snd].
    set (a := Rmin 1 (ba + Rabs (sin (tw + sp)) * 0.6)).
    assert (0.15 <= a <= 1) as Ha.
    { unfold a. pose proof (Rabs_pos (sin (tw + sp))). split.
      - apply Rmin_glb; lra.
      - apply Rmin_l. }
    constructor; [cbn; lra |]. constructor; [cbn; lra | constructor].
Qed.

(** X5: every disc a frame draws on a page the script can reach is
    visible and well formed: its opacity is in [0.03, 1] and its radius in
    [0.2, 5.2]. *)
Theorem frame_discs_visible (rnd : Random) (iw ih : N) (evs : list Event) :
  unit_interval rnd ->
  Forall drawnVisible (snd (handle (run evs (boot iw ih rnd)) frame)).
Proof.
  intro Hu. cbn [handle drawParticles snd]. constructor; [exact I |].
  pose proof (run_looks iw ih rnd evs Hu) as Hall.
  induction Hall as [| p ps Hp _ IH]; [constructor |].
  cbn [map concat]. apply Forall_app. split; [| exact IH].
  now apply drawParticle_visible.
Qed.

Lemma frame_discs_visible_witness :
  Forall drawnVisible
    (snd (handle (run [frame; mousemove 700 400] (boot 1400 800 sampleRandom)) frame)).
Proof.
  apply (frame_discs_visible sampleRandom 1400 800 [frame; mousemove 700 400]).
  exact sampleRandom_unit.
Defined.

Lemma scaled_strict (u : R) (edge : N) :
  0 <= u < 1 -> edge <> 0%N -> u * ofN edge < ofN edge.
Proof. intros Hu He. pose proof (ofN_pos edge He). nra. Qed.

(** X6: [createParticles] places every particle on the canvas: x is in
    [0, width] and y in [0, height], strictly below the width and the
    height when these are not zero, and the twinkle phase of a star starts
    in [0, 2*pi). *)
Theorem created_inside_canvas (rnd : Random) (iw ih : N) :
  unit_interval rnd ->
  Forall (createdInside (mkCanvas iw ih)) (particles (boot iw ih rnd)).
Proof.
  intro Hu. apply boot_Forall; intro j; unfold createdInside; cbn.
  - pose proof (scaled_within (rnd j) iw (Hu j)).
    pose proof (scaled_within (rnd (S j)) ih (Hu (S j))).
    split; [lra | split; [lra | split; [| split]]].
    + intro He. now apply scaled_strict.
    + intro He. now apply scaled_strict.
    + intros tw Htw. discriminate.
  - pose proof (scaled_within (rnd j) iw (Hu j)).
    pose proof (scaled_within (rnd (S j)) ih (Hu (S j))).
    pose proof (Hu (S (S (S j)))) as Hphase. pose proof PI_RGT_0 as Hpi.
    split; [lra | split; [lra | split; [| split]]].
    + intro He. now apply scaled_strict.
    + intro He. now apply scaled_strict.
    + intros tw Htw. injection Htw as <-. nra.
Qed.

Lemma created_inside_canvas_witness :
  Forall (createdInside (mkCanvas 1400 800)) (particles (boot 1400 800 sampleRandom)).
Proof.
  apply (created_inside_canvas sampleRandom 1400 800). exact sampleRandom_unit.
Defined.

Lemma spec_offset_bound (mouse : R) (edge : N) (par : R) :
  edge <> 0%N -> 0 <= mouse <= ofN edge -> 0 <= par ->
  Rabs (spec_offset mouse edge par) <= 15 * par.
Proof.
  intros He Hm Hpar. pose proof (ofN_pos edge He) as Hpos.
  unfold spec_offset.
  assert (0 <= mouse / ofN edge <= 1) as Hq.
  { split.
    - apply Rmult_le_pos; [lra |]. left. now apply Rinv_0_lt_compat.
    - apply Rmult_le_reg_r with (ofN edge); [exact Hpos |].
      unfold Rdiv. rewrite Rmult_assoc, Rinv_l by lra. lra. }
  apply Rabs_le. split; nra.
Qed.

(** X7: with the pointer on a canvas whose width and height are not zero,
    the parallax moves the discs of a star by at most 15 * parallax pixels
    on each axis, which is at most 15 pixels for every star of a page the
    script can reach. *)
Theorem parallax_shift_bounded (rnd : Random) (iw ih : N) (evs : list Event) :
  unit_interval rnd ->
  let pg := run evs (boot iw ih rnd) in
  width (canvas pg) <> 0%N -> height (canvas pg) <> 0%N ->
  0 <= mouseX pg <= ofN (width (canvas pg)) ->
  0 <= mouseY pg <= ofN (height (canvas pg)) ->
  Forall (shiftWithin (canvas pg) (mouseX pg) (mouseY pg)) (particles pg).
Proof.
  intros Hu pg Hw Hh HmX HmY.
  eapply Forall_impl; [| exact (run_looks iw ih rnd evs Hu)].
  intros [x y vx vy r a | x y r tw sp ba par]; cbn [looksInRange shiftWithin];
    [auto |].
  intros (_ & _ & Hpar).
  assert (0 <= par) as Hpar0 by lra.
  pose proof (spec_offset_bound (mouseX pg) (width (canvas pg)) par Hw HmX Hpar0) as Hox.
  pose proof (spec_offset_bound (mouseY pg) (height (canvas pg)) par Hh HmY Hpar0) as Hoy.
  exists (spec_offset (mouseX pg) (width (canvas pg)) par),
         (spec_offset (mouseY pg) (height (canvas pg)) par).
  split; [now apply parallaxOffset_finite |].
  split; [now apply parallaxOffset_finite |].
  split; [exact Hox | split; [exact Hoy | split; lra]].
Qed.

Lemma parallax_shift_bounded_witness :
  Forall (shiftWithin (mkCanvas 1400 800) 1400 0)
    (particles (run [mousemove 1400 0; frame] (boot 1400 800 sampleRandom))).
Proof.
  pose proof (parallax_shift_bounded sampleRandom 1400 800 [mousemove 1400 0; frame]
                sampleRandom_unit) as H.
  cbv zeta in H.
  assert (canvas (run [mousemove 1400 0; frame] (boot 1400 800 sampleRandom))
          = mkCanvas 1400 800) as Hc
      by (cbn [run fold_left handle fst drawParticles canvas]; apply boot_canvas).
  rewrite Hc in H.
  cbn [run fold_left handle fst drawParticles mouseX mouseY width height] in H.
  apply H.
  - discriminate.
  - discriminate.
  - unfold ofN. cbn [Z.of_N]. lra.
  - unfold ofN. cbn [Z.of_N]. lra.
Defined.

Lemma run_mouse_irrelevant :
  forall (evs : list Event) (pg : Page) (mX mY : R),
    particles (run evs (mkPage (canvas pg) mX mY (particles pg)))
      = particles (run evs pg) /\
    canvas (run evs (mkPage (canvas pg) mX mY (particles pg)))
      = canvas (run evs pg).
Proof.
  induction evs as [| e evs IH]; intros pg mX mY; [split; reflexivity |].
  rewrite !run_cons. destruct e as [iw ih | cx cy |].
  - apply (IH (resizeCanvas iw ih pg) mX mY).
  - cbn [handle fst canvas particles].
    destruct (IH pg cx cy) as [H1 H2]. now rewrite H1, H2.
  - cbn [handle fst drawParticles canvas mouseX mouseY particles].
    rewrite !map_map.
    assert (forall a b, map (fun p => fst (drawParticle (canvas pg) a b p)) (particles pg)
                        = map (fun p => fst (drawParticle (canvas pg) 0 0 p)) (particles pg))
      as Hsame.
    { intros a b. apply map_ext. intros [x y vx vy r al | x y r tw sp ba par]; reflexivity. }
    rewrite (Hsame mX mY), (Hsame (mouseX pg) (mouseY pg)).
    pose proof (IH (mkPage (canvas pg) (mouseX pg) (mouseY pg)
                      (map (fun p => fst (drawParticle (canvas pg) 0 0 p)) (particles pg)))
                   mX mY) as H.
    exact H.
Qed.

(** X8: the pointer never touches the simulation.  The particles and the
    canvas after a run are the ones the same run gives with every
    ['mousemove'] left out: pointer moves change only where a frame draws
    the stars. *)
Theorem pointer_never_moves_particles (evs : list Event) (pg : Page) :
  particles (run evs pg)
    = particles (run (filter (fun e => negb (isMousemove e)) evs) pg) /\
  canvas (run evs pg)
    = canvas (run (filter (fun e => negb (isMousemove e)) evs) pg).
Proof.
  revert pg. induction evs as [| e evs IH]; intro pg; [split; reflexivity |].
  destruct e as [iw ih | cx cy |]; cbn [filter isMousemove negb].
  - rewrite !run_cons. apply IH.
  - rewrite run_cons. cbn [handle fst].
    destruct (run_mouse_irrelevant evs pg cx cy) as [H1 H2].
    rewrite H1, H2. apply IH.
  - rewrite !run_cons. apply IH.
Qed.

Lemma wrap_inside (edge : N) (v : R) :
  -50 <= v <= ofN edge + 50 -> wrap edge v = v.
Proof.
  intro Hv. unfold wrap.
  destruct (Rlt_dec v (-50)) as [Hlo | Hlo]; [lra |].
  destruct (Rgt_dec v (ofN edge + 50)) as [Hhi | Hhi]; [lra | reflexivity].
Qed.

Lemma advance_0 (p : Particle) : advance 0 p = p.
Proof.
  destruct p as [x y vx vy r a | x y r tw sp ba par]; cbn; f_equal; ring.
Qed.

Lemma drawParticle_advance (c : Canvas) (mX mY : R) (k : nat) (p : Particle) :
  startsOn c p -> (k < 166)%nat ->
  fst (drawParticle c mX mY (advance k p)) = advance (S k) p.
Proof.
  intros Hp Hk.
  assert (0 <= INR k /\ INR (S k) <= 166) as [Hk0 Hk1].
  { split; [apply pos_INR |].
    replace 166 with (INR 166) by (rewrite INR_IZR_INZ; reflexivity).
    apply le_INR. lia. }
  rewrite S_INR in Hk1.
  destruct p as [x y vx vy r a | x y r tw sp ba par];
    cbn [advance drawParticle fst]; rewrite S_INR.
  - cbn [startsOn] in Hp. destruct Hp as (Hx & Hy & Hvx & Hvy).
    rewrite !wrap_inside by nra. f_equal; ring.
  - f_equal; ring.
Qed.

(** The positions over the exact reals of the model, used only to see that
    no wrap fires: the rounded sums of the engine stay within the same
    margins, but are not these sums. *)
Lemma run_advance (c : Canvas) (ps0 : list Particle) :
  Forall (startsOn c) ps0 ->
  forall (evs : list Event) (pg : Page) (k : nat),
    canvas pg = c ->
    particles pg = map (advance k) ps0 ->
    Forall (fun e => isResize e = false) evs ->
    (k + frameCount evs <= 166)%nat ->
    particles (run evs pg) = map (advance (k + frameCount evs)) ps0.
Proof.
  intro Hps0. induction evs as [| e evs IH]; intros pg k Hc Hpg Hevs Hk.
  - cbn. now rewrite Nat.add_0_r.
  - rewrite run_cons. inversion Hevs as [| e' evs' He Hevs']; subst e' evs'.
    destruct e as [iw ih | cx cy |]; [discriminate | |].
    + apply IH; auto.
    + unfold frameCount in Hk |- *. cbn [filter isFrame length] in Hk |- *.
      replace (k + S (length (filter isFrame evs)))%nat
        with (S k + length (filter isFrame evs))%nat by lia.
      apply IH; [exact Hc | | assumption | unfold frameCount; lia].
      rewrite handle_frame_particles, Hpg, map_map, Hc.
      apply map_ext_in. intros p Hin.
      apply drawParticle_advance; [| lia].
      rewrite Forall_forall in Hps0. now apply Hps0.
Qed.

Lemma boot_startsOn (iw ih : N) (rnd : Random) :
  unit_interval rnd ->
  Forall (startsOn (mkCanvas iw ih)) (particles (boot iw ih rnd)).
Proof.
  intro Hu. apply boot_Forall; intro j; cbn; [| exact I].
  pose proof (scaled_within (rnd j) iw (Hu j)).
  pose proof (scaled_within (rnd (S j)) ih (Hu (S j))).
  pose proof (Hu (S (S j))). pose proof (Hu (S (S (S j)))). lra.
Qed.

(** X9: for the first 166 frames after the page has loaded, as long as the
    window is not resized, no wrap fires: each of these frames moves every
    dust particle by its velocity and nothing else, and every dust
    particle stays within the margin of 50 pixels around the canvas. *)
Theorem dust_drifts_freely (rnd : Random) (iw ih : N) (evs : list Event) :
  unit_interval rnd ->
  Forall (fun e => isResize e = false) evs ->
  (frameCount evs < 166)%nat ->
  let pg := run evs (boot iw ih rnd) in
  canvas pg = mkCanvas iw ih /\
  particles (fst (handle pg frame)) = map drift (particles pg) /\
  Forall (dustWithin iw ih) (particles (fst (handle pg frame))).
Proof.
  intros Hu Hevs Hk pg.
  assert (particles pg = map (advance (frameCount evs)) (particles (boot iw ih rnd)))
    as Hnow.
  { apply (run_advance (mkCanvas iw ih) (particles (boot iw ih rnd))
             (boot_startsOn iw ih rnd Hu) evs (boot iw ih rnd) 0).
    - apply boot_canvas.
    - rewrite <- (map_id (particles (boot iw ih rnd))) at 1.
      apply map_ext. intro p. symmetry. apply advance_0.
    - exact Hevs.
    - cbn. lia. }
  assert (canvas pg = mkCanvas iw ih) as Hc.
  { unfold pg. clear - Hevs. generalize (boot_canvas iw ih rnd).
    generalize (boot iw ih rnd). induction Hevs as [| e evs He _ IH]; intros pg0 Hc0.
    - exact Hc0.
    - rewrite run_cons. apply IH. destruct e; [discriminate | exact Hc0 | exact Hc0]. }
  assert (particles (fst (handle pg frame)) = map drift (particles pg)) as Hstep.
  { rewrite handle_frame_particles, Hnow, !map_map, Hc.
    apply map_ext_in. intros p Hin.
    pose proof (proj1 (Forall_forall _ _) (boot_startsOn iw ih rnd Hu) p Hin) as Hp.
    rewrite (drawParticle_advance (mkCanvas iw ih) _ _ (frameCount evs) p Hp Hk).
    destruct p as [x y vx vy r a | x y r tw sp ba par];
      cbn [advance drift]; rewrite S_INR; f_equal; ring. }
  split; [exact Hc | split; [exact Hstep |]].
  rewrite handle_frame_particles, Hc. apply Forall_map, Forall_forall.
  intros p _. apply drawParticle_within; cbn [width height]; lia.
Qed.

Lemma dust_drifts_freely_witness :
  particles (fst (handle (run [frame; mousemove 5 5; frame]
                              (boot 1400 800 sampleRandom)) frame))
    = map drift (particles (run [frame; mousemove 5 5; frame]
                                (boot 1400 800 sampleRandom))).
Proof.
  apply (dust_drifts_freely sampleRandom 1400 800 [frame; mousemove 5 5; frame]).
  - exact sampleRandom_unit.
  - repeat constructor.
  - cbn. lia.
Defined.

(** * The cursor follower *)

(** The gap over the exact reals of the model, used only to bound it. *)
Lemma followFrames_gap (mX mY : R) :
  forall (n : nat) (f : Follower),
    mX - fx (followFrames n mX mY f) = 0.86 ^ n * (mX - fx f) /\
    mY - fy (followFrames n mX mY f) = 0.86 ^ n * (mY - fy f).
Proof.
  induction n as [| n IH]; intro f.
  - cbn. split; ring.
  - cbn [followFrames]. destruct (IH (followLoop mX mY f)) as [Hx Hy].
    rewrite Hx, Hy. cbn [followLoop fx fy pow]. split; lra.
Qed.

Lemma pow_086_120 : 0.86 ^ 120 * (2 * screenBound) <= 1.
Proof.
  assert (0 <= 0.86 ^ 8 <= 0.3) as H8 by (cbn [pow]; lra).
  assert (0 <= 0.86 ^ 16 <= 0.09) as H16.
  { replace 16%nat with (8 + 8)%nat by reflexivity. rewrite pow_add. nra. }
  assert (0 <= 0.86 ^ 32 <= 0.0081) as H32.
  { replace 32%nat with (16 + 16)%nat by reflexivity. rewrite pow_add. nra. }
  assert (0 <= 0.86 ^ 64 <= 0.00006561) as H64.
  { replace 64%nat with (32 + 32)%nat by reflexivity. rewrite pow_add. nra. }
  assert (0 <= 0.86 ^ 96 <= 0.00000054) as H96.
  { replace 96%nat with (64 + 32)%nat by reflexivity. rewrite pow_add. nra. }
  assert (0 <= 0.86 ^ 120 <= 0.0000000146) as H120.
  { replace 120%nat with (96 + (16 + 8))%nat by reflexivity. rewrite !pow_add. nra. }
  unfold screenBound. nra.
Qed.

Lemma gap_within_pixel (n : nat) (m v : R) :
  (120 <= n)%nat -> Rabs m <= screenBound -> Rabs v <= screenBound ->
  Rabs (0.86 ^ n * (m - v)) <= 1.
Proof.
  intros Hn Hm Hv.
  assert (Rabs (m - v) <= 2 * screenBound) as Hgap.
  { unfold Rminus. eapply Rle_trans; [apply Rabs_triang |]. rewrite Rabs_Ropp. lra. }
  assert (0 <= 0.86 ^ n <= 0.86 ^ 120) as Hpow.
  { split; [apply pow_le; lra |].
    replace n with (120 + (n - 120))%nat by lia. rewrite pow_add.
    assert (0 <= 0.86 ^ (n - 120) <= 1) as Hrest.
    { split; [apply pow_le; lra |].
      rewrite <- (pow1 (n - 120)). apply pow_incr. lra. }
    assert (0 <= 0.86 ^ 120) by (apply pow_le; lra). nra. }
  rewrite Rabs_mult, (Rabs_pos_eq (0.86 ^ n)) by apply Hpow.
  pose proof pow_086_120 as H120. pose proof (Rabs_pos (m - v)) as Hpos.
  unfold screenBound in *. nra.
Qed.

(** X10: the cursor follower closes in on a pointer at rest, for pointer
    and follower coordinates up to 2^20 pixels.  A frame never moves the
    follower away from the pointer or past it; while the gap on an axis is
    at least one pixel, a frame leaves at most 87% of it; and after 120
    frames the follower is within one pixel of the pointer on each axis.
    (The frame leaves 86% over exact reals; the slack and the bound on the
    coordinates keep the statement true of the rounded sums.) *)
Theorem follower_closes_in (mX mY : R) (f : Follower) :
  Rabs mX <= screenBound -> Rabs mY <= screenBound ->
  Rabs (fx f) <= screenBound -> Rabs (fy f) <= screenBound ->
  let g := followLoop mX mY f in
  (Rabs (mX - fx g) <= Rabs (mX - fx f) /\ 0 <= (mX - fx f) * (mX - fx g)) /\
  (Rabs (mY - fy g) <= Rabs (mY - fy f) /\ 0 <= (mY - fy f) * (mY - fy g)) /\
  (1 <= Rabs (mX - fx f) -> Rabs (mX - fx g) <= 0.87 * Rabs (mX - fx f)) /\
  (1 <= Rabs (mY - fy f) -> Rabs (mY - fy g) <= 0.87 * Rabs (mY - fy f)) /\
  forall n : nat, (120 <= n)%nat ->
    Rabs (mX - fx (followFrames n mX mY f)) <= 1 /\
    Rabs (mY - fy (followFrames n mX mY f)) <= 1.
Proof.
  intros HmX HmY Hfx Hfy g.
  assert (forall m v : R,
            m - (v + (m - v) * 0.14) = 0.86 * (m - v)) as Hstep by (intros; lra).
  assert (forall t : R, Rabs (0.86 * t) <= Rabs t /\ 0 <= t * (0.86 * t) /\
                        Rabs (0.86 * t) <= 0.87 * Rabs t) as Hshrink.
  { intro t. rewrite Rabs_mult, (Rabs_pos_eq 0.86) by lra.
    pose proof (Rabs_pos t). repeat split; nra. }
  unfold g. cbn [followLoop fx fy]. rewrite !Hstep.
  destruct (Hshrink (mX - fx f)) as (Hx1 & Hx2 & Hx3).
  destruct (Hshrink (mY - fy f)) as (Hy1 & Hy2 & Hy3).
  split; [split; assumption |]. split; [split; assumption |].
  split; [intros _; exact Hx3 |]. split; [intros _; exact Hy3 |].
  intros n Hn. destruct (followFrames_gap mX mY n f) as [Hx Hy].
  rewrite Hx, Hy. split; now apply gap_within_pixel.
Qed.

Lemma follower_closes_in_witness :
  Rabs (1400 - fx (followFrames 120 1400 800 (mkFollower 0 0))) <= 1 /\
  Rabs (800 - fy (followFrames 120 1400 800 (mkFollower 0 0))) <= 1.
Proof.
  apply (follower_closes_in 1400 800 (mkFollower 0 0)).
  - unfold screenBound. rewrite Rabs_pos_eq; lra.
  - unfold screenBound. rewrite Rabs_pos_eq; lra.
  - cbn [fx]. unfold screenBound. rewrite Rabs_R0. lra.
  - cbn [fy]. unfold screenBound. rewrite Rabs_R0. lra.
  - lia.
Defined.

Lemma followLoop_between (a b m v : R) :
  a <= m <= b -> a <= v <= b -> a <= v + (m - v) * 0.14 <= b.
Proof. intros Hm Hv. lra. Qed.

(** X11: the follower stays where the pointer has been.  If every pointer
    position the frames see lies in a rectangle and the follower starts in
    it, the follower is in it after every frame. *)
Theorem follower_stays_between (x0 x1 y0 y1 : R) (pts : list (R * R)) (f : Follower) :
  Forall (fun pt => x0 <= fst pt <= x1 /\ y0 <= snd pt <= y1) pts ->
  x0 <= fx f <= x1 -> y0 <= fy f <= y1 ->
  x0 <= fx (followTrack pts f) <= x1 /\ y0 <= fy (followTrack pts f) <= y1.
Proof.
  intro Hpts. revert f. unfold followTrack.
  induction Hpts as [| pt pts [Hx Hy] _ IH]; intros f Hfx Hfy; [auto |].
  cbn [fold_left]. apply IH; cbn [followLoop fx fy].
  - now apply followLoop_between.
  - now apply followLoop_between.
Qed.

Lemma follower_stays_between_witness :
  0 <= fx (followTrack [(1400, 0); (700, 400); (0, 800)] (mkFollower 0 0)) <= 1400 /\
  0 <= fy (followTrack [(1400, 0); (700, 400); (0, 800)] (mkFollower 0 0)) <= 800.
Proof.
  apply (follower_stays_between 0 1400 0 800).
  - repeat constructor; cbn; lra.
  - cbn. lra.
  - cbn. lra.
Defined.

(** * The typewriter *)

Lemma substring_0_length (s : String.string) :
  forall n : nat, (n <= String.length s)%nat ->
    String.length (String.substring 0 n s) = n.
Proof.
  induction s as [| c s IH]; intros [| n] Hn; cbn in *; try reflexivity; try lia.
  f_equal. apply IH. lia.
Qed.

Lemma substring_0_prefix (s : String.string) :
  forall n : nat, String.prefix (String.substring 0 n s) s = true.
Proof.
  induction s as [| c s IH]; intros [| n]; cbn; try reflexivity.
  destruct (Ascii.ascii_dec c c) as [_ | Hne]; [apply IH | congruence].
Qed.

Lemma substring_0_all (s : String.string) :
  String.substring 0 (String.length s) s = s.
Proof.
  induction s as [| c s IH]; cbn; [reflexivity |]. now rewrite IH.
Qed.

Lemma slice0_inside (word : String.string) (e : Z) :
  (0 <= e <= Z.of_nat (String.length word))%Z ->
  slice0 word e = String.substring 0 (Z.to_nat e) word.
Proof.
  intro He. unfold slice0.
  destruct (Z.ltb_spec e 0) as [Hneg | _]; [lia |].
  now rewrite Z.min_l by lia.
Qed.

Lemma nonempty_length (w : String.string) :
  w <> ""%string -> (1 <= Z.of_nat (String.length w))%Z.
Proof. destruct w; [congruence | cbn; lia]. Qed.

Lemma typeRun_add (ws : list String.string) :
  forall (a b : nat) (s : Typewriter),
    typeRun ws (a + b) s
      = match typeRun ws a s with
        | Some s' => typeRun ws b s'
        | None => None
        end.
Proof.
  induction a as [| a IH]; intros b s; [reflexivity |].
  cbn [Nat.add typeRun].
  destruct (typeLoop ws s) as [[[s' text] d] |]; [apply IH | reflexivity].
Qed.

(** One call while typing, before the word is complete. *)
Lemma typeLoop_typing (ws : list String.string) (w : nat) (word : String.string) (c : Z) :
  nth_error ws w = Some word ->
  (c + 1 < Z.of_nat (String.length word))%Z ->
  typeLoop ws (mkTypewriter w c 1)
    = Some (mkTypewriter w (c + 1) 1, slice0 word (c + 1), 90%Z).
Proof.
  intros Hw Hc. unfold typeLoop. cbn [wIdx ch direction]. rewrite Hw.
  cbn [Z.eqb Pos.eqb].
  replace (c + 1 >=? Z.of_nat (String.length word))%Z with false
    by (symmetry; rewrite Z.geb_leb; apply Z.leb_gt; lia).
  reflexivity.
Qed.

(** The call that completes the word. *)
Lemma typeLoop_complete (ws : list String.string) (w : nat) (word : String.string) (c : Z) :
  nth_error ws w = Some word ->
  (Z.of_nat (String.length word) <= c + 1)%Z ->
  typeLoop ws (mkTypewriter w c 1)
    = Some (mkTypewriter w (c + 1) (-1), slice0 word (c + 1), 1000%Z).
Proof.
  intros Hw Hc. unfold typeLoop. cbn [wIdx ch direction]. rewrite Hw.
  cbn [Z.eqb Pos.eqb].
  replace (c + 1 >=? Z.of_nat (String.length word))%Z with true
    by (symmetry; rewrite Z.geb_leb; apply Z.leb_le; lia).
  reflexivity.
Qed.

(** One call while deleting, before the text is empty. *)
Lemma typeLoop_deleting (ws : list String.string) (w : nat) (word : String.string) (c : Z) :
  nth_error ws w = Some word ->
  (1 < c)%Z ->
  typeLoop ws (mkTypewriter w c (-1))
    = Some (mkTypewriter w (c - 1) (-1), slice0 word (c - 1), 30%Z).
Proof.
  intros Hw Hc. unfold typeLoop. cbn [wIdx ch direction]. rewrite Hw.
  cbn [Z.eqb].
  replace (c - 1 <=? 0)%Z with false by (symmetry; apply Z.leb_gt; lia).
  reflexivity.
Qed.

(** The call that empties the text and selects the next word. *)
Lemma typeLoop_next (ws : list String.string) (w : nat) (word : String.string) (c : Z) :
  nth_error ws w = Some word ->
  (c <= 1)%Z ->
  typeLoop ws (mkTypewriter w c (-1))
    = Some (mkTypewriter ((w + 1) mod length ws) (c - 1) 1, slice0 word (c - 1), 90%Z).
Proof.
  intros Hw Hc. unfold typeLoop. cbn [wIdx ch direction]. rewrite Hw.
  cbn [Z.eqb Pos.eqb].
  replace (c - 1 <=? 0)%Z with true by (symmetry; apply Z.leb_le; lia).
  reflexivity.
Qed.

Lemma next_word_exists (ws : list String.string) (w : nat) :
  ws <> [] -> exists word : String.string,
    nth_error ws ((w + 1) mod length ws) = Some word.
Proof.
  intro Hne.
  assert (length ws <> 0%nat) as Hlen by (destruct ws; [congruence | cbn; lia]).
  destruct (nth_error ws ((w + 1) mod length ws)) as [word |] eqn:Hnth.
  - now exists word.
  - apply nth_error_None in Hnth.
    pose proof (Nat.mod_upper_bound (w + 1) (length ws) Hlen). lia.
Qed.

Lemma typeLoop_keeps_ok (ws : list String.string) (s : Typewriter) :
  Forall (fun w => w <> ""%string) ws ->
  typeOk ws s ->
  exists (s' : Typewriter) (text : String.string) (d : Z),
    typeLoop ws s = Some (s', text, d) /\ typeOk ws s'.
Proof.
  intros Hws (word & Hw & Hcase). destruct s as [w c dir]. cbn [wIdx ch direction] in *.
  destruct Hcase as [[-> Hc] | [-> Hc]].
  - destruct (Z.lt_ge_cases (c + 1) (Z.of_nat (String.length word))) as [Hlt | Hge].
    + rewrite (typeLoop_typing ws w word c Hw Hlt). do 3 eexists. split; [reflexivity |].
      exists word. cbn [wIdx ch direction]. split; [exact Hw | left; split; [reflexivity | lia]].
    + rewrite (typeLoop_complete ws w word c Hw Hge). do 3 eexists. split; [reflexivity |].
      exists word. cbn [wIdx ch direction]. split; [exact Hw | right; split; [reflexivity | lia]].
  - destruct (Z.lt_ge_cases 1 c) as [Hlt | Hge].
    + rewrite (typeLoop_deleting ws w word c Hw Hlt). do 3 eexists. split; [reflexivity |].
      exists word. cbn [wIdx ch direction]. split; [exact Hw | right; split; [reflexivity | lia]].
    + rewrite (typeLoop_next ws w word c Hw Hge). do 3 eexists. split; [reflexivity |].
      assert (ws <> []) as Hne by (intros ->; destruct w; discriminate).
      destruct (next_word_exists ws w Hne) as (word' & Hw').
      exists word'. cbn [wIdx ch direction]. split; [exact Hw' | left; split; [reflexivity |]].
      rewrite Forall_forall in Hws.
      pose proof (nonempty_length word' (Hws _ (nth_error_In _ _ Hw'))). lia.
Qed.

(** X12: [typeLoop] never fails and keeps its variables in range.  On any
    non-empty list of non-empty words, every call finds [words[wIdx]]
    defined, and after any number of calls [wIdx] selects a word and [ch]
    is a position in it: below the length while typing, at least 1 while
    deleting. *)
Theorem typewriter_safe (ws : list String.string) (n : nat) :
  ws <> [] ->
  Forall (fun w => w <> ""%string) ws ->
  exists s : Typewriter, typeRun ws n typeStart = Some s /\ typeOk ws s.
Proof.
  intros Hne Hws.
  assert (typeOk ws typeStart) as Hstart.
  { destruct ws as [| word ws']; [congruence |].
    exists word. split; [reflexivity | left; split; [reflexivity |]].
    inversion Hws as [| ? ? Hword _]; subst.
    pose proof (nonempty_length word Hword). cbn [typeStart ch]. lia. }
  generalize typeStart Hstart. clear Hstart.
  induction n as [| n IH]; intros s Hs.
  - exists s. split; [reflexivity | exact Hs].
  - destruct (typeLoop_keeps_ok ws s Hws Hs) as (s' & text & d & Hstep & Hs').
    cbn [typeRun]. rewrite Hstep. now apply IH.
Qed.

Lemma typewriter_safe_witness :
  exists s : Typewriter, typeRun words 500 typeStart = Some s /\ typeOk words s.
Proof.
  apply (typewriter_safe words 500).
  - discriminate.
  - repeat constructor; discriminate.
Defined.

Lemma substring_empty_iff (word : String.string) (n : nat) :
  (n <= String.length word)%nat ->
  (String.substring 0 n word = ""%string <-> n = 0%nat).
Proof.
  intro Hn. split.
  - intro He.
    transitivity (String.length (String.substring 0 n word));
      [symmetry; now apply substring_0_length | now rewrite He].
  - intros ->. destruct word; reflexivity.
Qed.

Lemma substring_all_iff (word : String.string) (n : nat) :
  (n <= String.length word)%nat ->
  (String.substring 0 n word = word <-> n = String.length word).
Proof.
  intro Hn. split.
  - intro He.
    transitivity (String.length (String.substring 0 n word));
      [symmetry; now apply substring_0_length | now rewrite He].
  - intros ->. apply substring_0_all.
Qed.

(** X13: what [typeLoop] shows.  Between calls in range, the text a call
    puts into the element is the first [ch] characters of the selected
    word, for the new [ch].  The delay is 1000 exactly when the text is the
    whole word, 30 exactly when a character was deleted and some are left,
    and 90 otherwise. *)
Theorem typewriter_text (ws : list String.string) (s s' : Typewriter)
        (word text : String.string) (d : Z) :
  Forall (fun w => w <> ""%string) ws ->
  typeOk ws s ->
  nth_error ws (wIdx s) = Some word ->
  typeLoop ws s = Some (s', text, d) ->
  text = String.substring 0 (Z.to_nat (ch s')) word /\
  String.length text = Z.to_nat (ch s') /\
  String.prefix text word = true /\
  (d = 1000%Z <-> text = word) /\
  (d = 30%Z <-> direction s = (-1)%Z /\ text <> ""%string) /\
  (d = 1000%Z \/ d = 30%Z \/ d = 90%Z).
Proof.
  intros Hws (word0 & Hw0 & Hcase) Hw Hstep.
  rewrite Hw in Hw0. injection Hw0 as <-.
  destruct s as [w c dir]. cbn [wIdx ch direction] in *.
  pose proof (nonempty_length word
                (proj1 (Forall_forall _ ws) Hws _ (nth_error_In _ _ Hw))) as Hlen.
  assert (forall e : Z, (0 <= e <= Z.of_nat (String.length word))%Z ->
            slice0 word e = String.substring 0 (Z.to_nat e) word /\
            String.length (slice0 word e) = Z.to_nat e /\
            String.prefix (slice0 word e) word = true /\
            (slice0 word e = word <-> e = Z.of_nat (String.length word)) /\
            (slice0 word e = ""%string <-> e = 0%Z)) as Hslice.
  { intros e He. rewrite (slice0_inside word e He).
    assert (Z.to_nat e <= String.length word)%nat as Hn by lia.
    repeat split.
    - now apply substring_0_length.
    - apply substring_0_prefix.
    - intro H. apply (substring_all_iff word _ Hn) in H. lia.
    - intros ->. rewrite Nat2Z.id. apply substring_0_all.
    - intro H. apply (substring_empty_iff word _ Hn) in H. lia.
    - intros ->. destruct word; reflexivity. }
  destruct Hcase as [[-> Hc] | [-> Hc]].
  - destruct (Z.lt_ge_cases (c + 1) (Z.of_nat (String.length word))) as [Hlt | Hge].
    + rewrite (typeLoop_typing ws w word c Hw Hlt) in Hstep.
      injection Hstep as <- <- <-. cbn [ch].
      destruct (Hslice (c + 1)%Z ltac:(lia)) as (H1 & H2 & H3 & H4 & H5).
      repeat split; auto; try discriminate; try lia.
      intro Hx. apply H4 in Hx. lia.
    + rewrite (typeLoop_complete ws w word c Hw Hge) in Hstep.
      injection Hstep as <- <- <-. cbn [ch].
      destruct (Hslice (c + 1)%Z ltac:(lia)) as (H1 & H2 & H3 & H4 & H5).
      repeat split; auto; try discriminate; try lia.
      intros _. apply H4. lia.
  - destruct (Z.lt_ge_cases 1 c) as [Hlt | Hge].
    + rewrite (typeLoop_deleting ws w word c Hw Hlt) in Hstep.
      injection Hstep as <- <- <-. cbn [ch].
      destruct (Hslice (c - 1)%Z ltac:(lia)) as (H1 & H2 & H3 & H4 & H5).
      repeat split; auto; try discriminate; try lia.
      * intro Hx. apply H4 in Hx. lia.
      * intro Hx. apply H5 in Hx. lia.
    + rewrite (typeLoop_next ws w word c Hw Hge) in Hstep.
      injection Hstep as <- <- <-. cbn [ch].
      destruct (Hslice (c - 1)%Z ltac:(lia)) as (H1 & H2 & H3 & H4 & H5).
      repeat split; auto; try discriminate; try lia.
      * intro Hx. apply H4 in Hx. lia.
      * intros [_ Hx]. exfalso. apply Hx. apply H5. lia.
Qed.

Lemma typewriter_text_witness :
  "I"%string = String.substring 0 1 "I build with curiosity."%string /\
  String.length "I"%string = 1%nat.
Proof.
  assert (Forall (fun w => w <> ""%string) words) as Hws
      by (repeat constructor; discriminate).
  assert (typeOk words typeStart) as Hok.
  { exists "I build with curiosity."%string.
    split; [reflexivity | left; split; [reflexivity | cbn; lia]]. }
  destruct (typewriter_text words typeStart (mkTypewriter 0 1 1)
              "I build with curiosity."%string "I"%string 90%Z
              Hws Hok eq_refl eq_refl)
    as (H1 & H2 & _).
  split; assumption.
Defined.

Lemma typing_phase (ws : list String.string) (w : nat) (word : String.string) :
  nth_error ws w = Some word ->
  forall (k : nat) (c : Z),
    (c + Z.of_nat k < Z.of_nat (String.length word))%Z ->
    typeRun ws k (mkTypewriter w c 1) = Some (mkTypewriter w (c + Z.of_nat k) 1).
Proof.
  intro Hw. induction k as [| k IH]; intros c Hc.
  - cbn. now rewrite Z.add_0_r.
  - cbn [typeRun]. rewrite (typeLoop_typing ws w word c Hw) by lia.
    rewrite IH by lia. do 2 f_equal. lia.
Qed.

Lemma deleting_phase (ws : list String.string) (w : nat) (word : String.string) :
  nth_error ws w = Some word ->
  forall (k : nat) (c : Z),
    (1 <= c - Z.of_nat k)%Z ->
    typeRun ws k (mkTypewriter w c (-1))
      = Some (mkTypewriter w (c - Z.of_nat k) (-1)).
Proof.
  intro Hw. induction k as [| k IH]; intros c Hc.
  - cbn. now rewrite Z.sub_0_r.
  - cbn [typeRun]. rewrite (typeLoop_deleting ws w word c Hw) by lia.
    rewrite IH by lia. do 2 f_equal. lia.
Qed.

Lemma word_typed (ws : list String.string) (w : nat) (word : String.string) :
  nth_error ws w = Some word -> word <> ""%string ->
  typeRun ws (String.length word) (mkTypewriter w 0 1)
    = Some (mkTypewriter w (Z.of_nat (String.length word)) (-1)).
Proof.
  intros Hw Hne. pose proof (nonempty_length word Hne) as Hlen.
  destruct (String.length word) as [| l] eqn:HL; [cbn in Hlen; lia |].
  replace (S l) with (l + 1)%nat by lia.
  rewrite typeRun_add, (typing_phase ws w word Hw l 0%Z) by (rewrite HL; lia).
  cbn [typeRun]. rewrite (typeLoop_complete ws w word _ Hw) by (rewrite HL; lia).
  do 2 f_equal. lia.
Qed.

Lemma word_deleted (ws : list String.string) (w : nat) (word : String.string) :
  nth_error ws w = Some word -> word <> ""%string ->
  typeRun ws (String.length word)
    (mkTypewriter w (Z.of_nat (String.length word)) (-1))
    = Some (mkTypewriter ((w + 1) mod length ws) 0 1).
Proof.
  intros Hw Hne. pose proof (nonempty_length word Hne) as Hlen.
  destruct (String.length word) as [| l] eqn:HL; [cbn in Hlen; lia |].
  replace (S l) with (l + 1)%nat at 1 by lia.
  rewrite typeRun_add, (deleting_phase ws w word Hw l) by lia.
  cbn [typeRun]. rewrite (typeLoop_next ws w word _ Hw) by lia.
  do 2 f_equal. lia.
Qed.

(** X14: the life of one word.  Starting with an empty text on a non-empty
    word of length L, the first L calls type it one character per call,
    the L-th completes it and turns to deleting, the next L calls delete it
    one character per call, and the 2L-th leaves an empty text with the
    next word selected, the first one after the last. *)
Theorem word_cycle (ws : list String.string) (w : nat) (word : String.string) :
  nth_error ws w = Some word -> word <> ""%string ->
  let L := String.length word in
  (forall k : nat, (k < L)%nat ->
     typeRun ws k (mkTypewriter w 0 1) = Some (mkTypewriter w (Z.of_nat k) 1)) /\
  (forall j : nat, (j < L)%nat ->
     typeRun ws (L + j) (mkTypewriter w 0 1)
       = Some (mkTypewriter w (Z.of_nat (L - j)) (-1))) /\
  typeRun ws (2 * L) (mkTypewriter w 0 1)
    = Some (mkTypewriter ((w + 1) mod length ws) 0 1).
Proof.
  intros Hw Hne L. split; [| split].
  - intros k Hk. rewrite (typing_phase ws w word Hw k 0%Z) by (unfold L in Hk; lia).
    reflexivity.
  - intros j Hj. rewrite typeRun_add. unfold L. rewrite (word_typed ws w word Hw Hne).
    rewrite (deleting_phase ws w word Hw j) by (unfold L in Hj; lia).
    do 2 f_equal. lia.
  - replace (2 * L)%nat with (L + L)%nat by lia.
    rewrite typeRun_add. unfold L. rewrite (word_typed ws w word Hw Hne).
    now apply word_deleted.
Qed.

Lemma word_cycle_witness :
  typeRun words 46 (mkTypewriter 0 0 1) = Some (mkTypewriter 1 0 1).
Proof.
  apply (word_cycle words 0 "I build with curiosity."%string).
  - reflexivity.
  - discriminate.
Defined.

Lemma cycle_from (ws : list String.string) :
  Forall (fun w => w <> ""%string) ws ->
  forall (rest : list String.string) (w : nat),
    (w < length ws)%nat ->
    skipn w ws = rest ->
    typeRun ws (2 * totalLength rest) (mkTypewriter w 0 1) = Some typeStart.
Proof.
  intro Hws. induction rest as [| word rest IH]; intros w Hlt Hskip.
  - exfalso. assert (length (skipn w ws) = 0%nat) as Hz by now rewrite Hskip.
    rewrite length_skipn in Hz. lia.
  - assert (nth_error ws w = Some word) as Hw.
    { rewrite <- (firstn_skipn w ws), Hskip.
      rewrite nth_error_app2 by (rewrite length_firstn; lia).
      rewrite length_firstn, Nat.min_l by lia. now rewrite Nat.sub_diag. }
    assert (word <> ""%string) as Hne
        by (apply (proj1 (Forall_forall _ ws) Hws); eapply nth_error_In; exact Hw).
    assert (skipn (S w) ws = rest) as Hskip'.
    { replace (S w) with (1 + w)%nat by lia.
      rewrite <- skipn_skipn, Hskip. reflexivity. }
    cbn [totalLength fold_right]. fold (totalLength rest).
    replace (2 * (String.length word + totalLength rest))%nat
      with (2 * String.length word + 2 * totalLength rest)%nat by lia.
    rewrite typeRun_add.
    replace (2 * String.length word)%nat
      with (String.length word + String.length word)%nat by lia.
    rewrite typeRun_add, (word_typed ws w word Hw Hne), (word_deleted ws w word Hw Hne).
    destruct (Nat.eq_dec (S w) (length ws)) as [Hlast | Hmore].
    + replace (w + 1)%nat with (length ws) by lia.
      rewrite Nat.Div0.mod_same.
      assert (rest = []) as ->.
      { rewrite <- Hskip', Hlast. apply skipn_all. }
      reflexivity.
    + rewrite Nat.mod_small by lia.
      replace (w + 1)%nat with (S w) by lia.
      apply IH; [lia | exact Hskip'].
Qed.

(** X15: the typewriter is periodic.  On any non-empty list of non-empty
    words, twice as many calls as the words have characters bring
    [wIdx], [ch] and [direction] back to their initial values, every word
    having been typed and deleted once, in order; for the words of the
    script that is 172 calls. *)
Theorem typewriter_period (ws : list String.string) :
  ws <> [] ->
  Forall (fun w => w <> ""%string) ws ->
  typeRun ws (2 * totalLength ws) typeStart = Some typeStart.
Proof.
  intros Hne Hws. apply (cycle_from ws Hws ws 0).
  - destruct ws; [congruence | cbn; lia].
  - reflexivity.
Qed.

Lemma typewriter_period_witness :
  typeRun words 172 typeStart = Some typeStart.
Proof.
  apply (typewriter_period words).
  - discriminate.
  - repeat constructor; discriminate.
Defined.

(** * Navigation *)

Lemma scanSections_cons (dom : Layout) (pos : R) (id : String.string)
      (ids : list String.string) (active : String.string) :
  scanSections dom pos (id :: ids) active
    = scanSections dom pos ids (if reached dom pos id then id else active).
Proof.
  unfold scanSections, reached. cbn [fold_left].
  destruct (dom id) as [top |]; [| reflexivity].
  destruct (Rle_dec (IZR top) pos); reflexivity.
Qed.

Lemma scanSections_last (dom : Layout) (pos : R) :
  forall (ids : list String.string) (active : String.string),
    (Forall (fun id => reached dom pos id = false) ids /\
     scanSections dom pos ids active = active) \/
    exists before after : list String.string,
      ids = before ++ scanSections dom pos ids active :: after /\
      reached dom pos (scanSections dom pos ids active) = true /\
      Forall (fun id => reached dom pos id = false) after.
Proof.
  induction ids as [| id ids IH]; intro active.
  - left. split; [constructor | reflexivity].
  - rewrite scanSections_cons.
    destruct (IH (if reached dom pos id then id else active))
      as [[Hnone Hsame] | (before & after & Hsplit & Hr & Hafter)].
    + rewrite Hsame. destruct (reached dom pos id) eqn:Hid.
      * right. exists [], ids. repeat split; assumption.
      * left. split; [constructor; assumption | reflexivity].
    + right. exists (id :: before), after. split; [| split; assumption].
      cbn [app]. f_equal. exact Hsplit.
Qed.

(** X16: which section [setActiveLink] selects.  It is the last section of
    the list whose element exists and starts at or above scrollY + 120; when
    there is none, it is 'intro', also when the 'intro' element is missing
    or starts below that line. *)
Theorem active_section_is_last_reached (dom : Layout) (scrollY : R) :
  let a := activeSection dom scrollY in
  (Forall (fun id => reached dom (scrollY + 120) id = false) sections /\
   a = "intro"%string) \/
  exists before after : list String.string,
    sections = before ++ a :: after /\
    reached dom (scrollY + 120) a = true /\
    Forall (fun id => reached dom (scrollY + 120) id = false) after.
Proof.
  cbv zeta. unfold activeSection.
  destruct (scanSections_last dom (scrollY + 120) sections (nth 0 sections ""%string))
    as [[Hnone Hsame] | Hsplit].
  - left. split; [exact Hnone | rewrite Hsame; reflexivity].
  - right. exact Hsplit.
Qed.

Lemma reached_mono (dom : Layout) (p1 p2 : R) (id : String.string) :
  p1 <= p2 -> reached dom p1 id = true -> reached dom p2 id = true.
Proof.
  intros Hp. unfold reached. destruct (dom id) as [top |]; [| discriminate].
  destruct (Rle_dec (IZR top) p1); [| discriminate].
  destruct (Rle_dec (IZR top) p2); [reflexivity | lra].
Qed.

Lemma none_reached_mono (dom : Layout) (p1 p2 : R) (ids : list String.string) :
  p1 <= p2 ->
  Forall (fun id => reached dom p2 id = false) ids ->
  Forall (fun id => reached dom p1 id = false) ids.
Proof.
  intros Hp. apply Forall_impl. intros id H2.
  destruct (reached dom p1 id) eqn:H1; [| reflexivity].
  rewrite (reached_mono dom p1 p2 id Hp H1) in H2. discriminate.
Qed.

(** X17: scrolling down never moves the highlight back.  If the page is
    scrolled further down, the section selected is the same one or a later
    one of the list, whatever the layout is. *)
Theorem scrolling_down_never_goes_back (dom : Layout) (y1 y2 : R) :
  y1 <= y2 ->
  exists before after : list String.string,
    sections = before ++ activeSection dom y2 :: after /\
    In (activeSection dom y1) (before ++ [activeSection dom y2]).
Proof.
  intro Hy. assert (y1 + 120 <= y2 + 120) as Hp by lra.
  unfold activeSection.
  set (first := nth 0 sections ""%string).
  destruct (scanSections_last dom (y2 + 120) sections first)
    as [[Hnone2 Hsame2] | (before & after & Hsplit & Hr2 & Hafter)].
  - rewrite Hsame2.
    destruct (scanSections_last dom (y1 + 120) sections first)
      as [[_ Hsame1] | (b1 & a1 & Hs1 & Hr1 & _)].
    + rewrite Hsame1. exists [], (tl sections). split; [reflexivity | now left].
    + exfalso. rewrite Forall_forall in Hnone2.
      assert (In (scanSections dom (y1 + 120) sections first) sections) as Hin
          by (rewrite Hs1 at 2; apply in_elt).
      specialize (Hnone2 _ Hin).
      rewrite (reached_mono dom _ _ _ Hp Hr1) in Hnone2. discriminate.
  - remember (scanSections dom (y2 + 120) sections first) as a2 eqn:Ha2.
    exists before, after. split; [exact Hsplit |].
    pose proof (none_reached_mono dom _ _ after Hp Hafter) as Hafter1.
    assert (forall id, In id sections -> ~ In id after -> In id (before ++ [a2]))
      as Hfront.
    { intros id Hin Hnot. rewrite Hsplit in Hin.
      apply in_app_or in Hin. apply in_or_app.
      destruct Hin as [Hb | [He | Ha]]; [now left | right; now left | contradiction]. }
    destruct (scanSections_last dom (y1 + 120) sections first)
      as [[_ Hsame1] | (b1 & a1 & Hs1 & Hr1 & _)].
    + rewrite Hsame1. unfold first. rewrite Hsplit.
      destruct before as [| b before']; left; reflexivity.
    + apply Hfront.
      * rewrite Hs1 at 2. apply in_elt.
      * intro Hin. rewrite Forall_forall in Hafter1.
        rewrite (Hafter1 _ Hin) in Hr1. discriminate.
Qed.

Lemma scrolling_down_never_goes_back_witness :
  exists before after : list String.string,
    sections = before ++ activeSection sampleLayout 1000 :: after /\
    In (activeSection sampleLayout 0) (before ++ [activeSection sampleLayout 1000]).
Proof.
  apply (scrolling_down_never_goes_back sampleLayout 0 1000). lra.
Defined.

Lemma active_in_sections (dom : Layout) (scrollY : R) :
  In (activeSection dom scrollY) sections.
Proof.
  unfold activeSection.
  destruct (scanSections_last dom (scrollY + 120) sections (nth 0 sections ""%string))
    as [[_ Hsame] | (before & after & Hsplit & _)].
  - rewrite Hsame. now left.
  - remember (scanSections dom (scrollY + 120) sections (nth 0 sections ""%string))
      as a eqn:Ha.
    rewrite Hsplit. apply in_elt.
Qed.

(** X18: with one link per section, whose [href] is '#' and the id, exactly
    one link is marked active at every scroll position and in every
    layout: the link of the selected section. *)
Theorem one_link_highlighted (dom : Layout) (scrollY : R) :
  setActiveLink dom scrollY (map linkTo sections)
    = map (fun id => String.eqb id (activeSection dom scrollY)) sections /\
  length (filter (fun b : bool => b) (setActiveLink dom scrollY (map linkTo sections)))
    = 1%nat.
Proof.
  unfold setActiveLink.
  pose proof (active_in_sections dom scrollY) as Hin.
  destruct Hin as [<- | [<- | [<- | [<- | [<- | [<- | []]]]]]];
    split; reflexivity.
Qed.

(** * Tilt, theme and tabs *)

Lemma tilt_ratio (lo size client : R) :
  0 < size -> lo <= client <= lo + size ->
  Ndiv (Fin (client - lo - size / 2)) (Fin (size / 2))
    = Fin (2 * (client - lo) / size - 1) /\
  -1 <= 2 * (client - lo) / size - 1 <= 1.
Proof.
  intros Hs Hc. cbn [Ndiv]. rewrite (Rsign_Gt (size / 2)) by lra. split.
  - f_equal. field. lra.
  - assert (0 <= (client - lo) / size <= 1) as Hq.
    { split.
      - apply Rmult_le_pos; [lra |]. left. now apply Rinv_0_lt_compat.
      - apply Rmult_le_reg_r with size; [exact Hs |].
        unfold Rdiv. rewrite Rmult_assoc, Rinv_l by lra. lra. }
    unfold Rdiv in *. rewrite Rmult_assoc. lra.
Qed.

(** X19: the tilt is bounded.  With the pointer on an element of positive
    width and height, a card is rotated by 6 * (2*y/height - 1) degrees
    about the x axis and 10 * (2*x/width - 1) about the y axis (x, y the
    pointer relative to the element), so by at most 6 and 10 degrees, and a
    section by the same with 2.5 and 5. *)
Theorem tilt_bounded (rect : Rect) (clientX clientY : R) :
  0 < rect_width rect -> 0 < rect_height rect ->
  rect_left rect <= clientX <= rect_left rect + rect_width rect ->
  rect_top rect <= clientY <= rect_top rect + rect_height rect ->
  let dx := 2 * (clientX - rect_left rect) / rect_width rect - 1 in
  let dy := 2 * (clientY - rect_top rect) / rect_height rect - 1 in
  cardTilt rect clientX clientY = (Fin (dy * 6), Fin (dx * 10)) /\
  sectionTilt rect clientX clientY = (Fin (dy * 2.5), Fin (dx * 5)) /\
  Rabs (dy * 6) <= 6 /\ Rabs (dx * 10) <= 10 /\
  Rabs (dy * 2.5) <= 2.5 /\ Rabs (dx * 5) <= 5.
Proof.
  intros Hw Hh Hx Hy dx dy.
  destruct (tilt_ratio (rect_left rect) (rect_width rect) clientX Hw Hx) as [Hdx Hbx].
  destruct (tilt_ratio (rect_top rect) (rect_height rect) clientY Hh Hy) as [Hdy Hby].
  fold dx in Hdx, Hbx. fold dy in Hdy, Hby.
  unfold cardTilt, sectionTilt. cbv zeta. rewrite Hdx, Hdy. cbn [Nmul].
  repeat split; apply Rabs_le; lra.
Qed.

Lemma tilt_bounded_witness :
  cardTilt (mkRect 100 200 300 400) 100 600 = (Fin (1 * 6), Fin (-1 * 10)).
Proof.
  pose proof (tilt_bounded (mkRect 100 200 300 400) 100 600) as H.
  cbn [rect_left rect_top rect_width rect_height] in H. cbv zeta in H.
  destruct H as (Hcard & _); try lra.
  rewrite Hcard. f_equal; f_equal; lra.
Defined.

Lemma themeClicks_S (n : nat) (t : Theme) :
  themeClicks (S n) t = themeClick (themeClicks n t).
Proof. reflexivity. Qed.

Lemma themeClicks_light (n : nat) (t : Theme) :
  light (themeClicks n t) = xorb (Nat.odd n) (light t).
Proof.
  induction n as [| n IH]; [reflexivity |].
  rewrite themeClicks_S. cbn [themeClick light]. rewrite IH, Nat.odd_succ.
  rewrite <- Nat.negb_odd. destruct (Nat.odd n), (light t); reflexivity.
Qed.

(** X20: the theme survives a reload only through the stored item.  After
    at least one click the stored item and the icon agree with the class of
    the body, and the class flips with every click.  A reload on markup
    without the class 'light' restores the theme that was stored; on markup
    with that class the page is light whatever was stored.  A restored
    dark theme leaves the icon of the markup. *)
Theorem theme_round_trip (markupLight : bool) (stored : option String.string) (n : nat) :
  let t := themeClicks (S n) (themeLoad markupLight stored) in
  saved t = Some (if light t then "light" else "dark")%string /\
  icon t = Some (if light t then sun else moon) /\
  light t = xorb (Nat.odd (S n)) (light (themeLoad markupLight stored)) /\
  light (themeLoad false (saved t)) = light t /\
  light (themeLoad true (saved t)) = true /\
  (light t = false -> icon (themeLoad false (saved t)) = None).
Proof.
  cbv zeta. rewrite themeClicks_S.
  set (u := themeClicks n (themeLoad markupLight stored)).
  assert (light (themeClick u) = xorb (Nat.odd (S n)) (light (themeLoad markupLight stored)))
    as Hflip by (unfold u; rewrite <- themeClicks_S; apply themeClicks_light).
  split; [reflexivity | split; [reflexivity | split; [exact Hflip |]]].
  cbn [themeClick saved light].
  destruct (negb (light u)); cbn; repeat split; congruence.
Qed.

Lemma activate_flags (tabs : list Tab) :
  forall i : nat, (i < length tabs)%nat ->
    Forall (fun t => tabActive t = false) tabs ->
    map tabActive (activate i tabs)
      = repeat false i ++ true :: repeat false (length tabs - S i) /\
    map dataTab (activate i tabs) = map dataTab tabs.
Proof.
  induction tabs as [| t tabs IH]; intros i Hi Hall; [cbn in Hi; lia |].
  inversion Hall as [| ? ? Ht Hrest]; subst.
  destruct i as [| i]; cbn [activate map repeat app length Nat.sub tabActive dataTab].
  - split; [| reflexivity]. f_equal. rewrite Nat.sub_0_r.
    now apply map_const_repeat.
  - cbn [length] in Hi. destruct (IH i ltac:(lia) Hrest) as [Hflags Hnames].
    rewrite Hflags, Hnames, Ht. split; reflexivity.
Qed.

(** X21: a click on a tab leaves exactly that tab active, whichever tabs
    were active before, and shows exactly the collections whose
    [data-collection] is the [data-tab] of the tab; the names of tabs and
    collections are not changed.  A click on the same tab again changes
    nothing. *)
Theorem tab_click_selects (i : nat) (tabs : list Tab) (cols : list Collection)
        (t : Tab) :
  nth_error tabs i = Some t ->
  exists (tabs' : list Tab) (cols' : list Collection),
    clickTab i tabs cols = Some (tabs', cols') /\
    map tabActive tabs' = repeat false i ++ true :: repeat false (length tabs - S i) /\
    map dataTab tabs' = map dataTab tabs /\
    map collectionActive cols'
      = map (fun c => sameName (dataCollection c) (dataTab t)) cols /\
    map dataCollection cols' = map dataCollection cols /\
    clickTab i tabs' cols' = Some (tabs', cols').
Proof.
  intro Ht. unfold clickTab at 1. rewrite Ht. do 2 eexists. split; [reflexivity |].
  assert (i < length tabs)%nat as Hi by (apply nth_error_Some; congruence).
  set (cleared := map (fun x => mkTab (dataTab x) false) tabs).
  assert (Forall (fun x => tabActive x = false) cleared) as Hclr
      by (apply Forall_map, Forall_forall; reflexivity).
  assert (length cleared = length tabs) as Hlen by apply length_map.
  destruct (activate_flags cleared i ltac:(lia) Hclr) as [Hflags Hnames].
  assert (map dataTab cleared = map dataTab tabs) as Hsame
      by (unfold cleared; rewrite map_map; reflexivity).
  rewrite Hlen in Hflags. rewrite Hsame in Hnames.
  split; [exact Hflags | split; [exact Hnames |]].
  split; [now rewrite map_map | split; [now rewrite map_map |]].
  assert (nth_error (activate i cleared) i = Some (mkTab (dataTab t) true)) as Ht'.
  { assert (nth_error cleared i = Some (mkTab (dataTab t) false)) as Hc
        by (unfold cleared; rewrite nth_error_map, Ht; reflexivity).
    clear - Hc. revert i Hc. induction cleared as [| c cl IH]; intros [| i] Hc;
      try discriminate; cbn in *.
    - injection Hc as ->. reflexivity.
    - now apply IH. }
  unfold clickTab. rewrite Ht'. cbn [dataTab]. f_equal. f_equal.
  - assert (forall l j, activate j (map (fun x => mkTab (dataTab x) false) (activate j l))
                        = activate j (map (fun x => mkTab (dataTab x) false) l)) as Hidem.
    { induction l as [| x l IHl]; intros [| j]; cbn; try reflexivity.
      now rewrite IHl. }
    rewrite Hidem. unfold cleared. rewrite map_map. reflexivity.
  - rewrite map_map. reflexivity.
Qed.

Lemma tab_click_selects_witness :
  exists (tabs' : list Tab) (cols' : list Collection),
    clickTab 1 sampleTabs sampleCollections = Some (tabs', cols') /\
    map tabActive tabs' = [false; true; false] /\
    map collectionActive cols' = [false; true; false].
Proof.
  destruct (tab_click_selects 1 sampleTabs sampleCollections
              (mkTab (Some "beaches"%string) true) eq_refl)
    as (tabs' & cols' & Hclick & Hflags & _ & Hcols & _).
  exists tabs', cols'. repeat split; assumption.
Defined.

(** * More on the stars *)

(** X22: the stars never leave the window the page was loaded in.  After
    any resizes, pointer moves and frames, the stored position of every
    star is still within the width and height the window had at load time:
    enlarging the window adds no star to the new area. *)
Theorem stars_stay_in_first_window (rnd : Random) (iw ih : N) (evs : list Event) :
  unit_interval rnd ->
  Forall (starAnchoredIn (mkCanvas iw ih)) (particles (run evs (boot iw ih rnd))).
Proof.
  intro Hu. apply run_Forall_stable.
  - intros c mX mY [x y vx vy r a | x y r tw sp ba par] Hp; exact Hp.
  - apply boot_Forall; intro j; cbn; [exact I |].
    pose proof (scaled_within (rnd j) iw (Hu j)).
    pose proof (scaled_within (rnd (S j)) ih (Hu (S j))). lra.
Qed.

Lemma stars_stay_in_first_window_witness :
  Forall (starAnchoredIn (mkCanvas 640 480))
    (particles (run [frame; resize 2800 1600; frame] (boot 640 480 sampleRandom))).
Proof.
  apply (stars_stay_in_first_window sampleRandom 640 480 [frame; resize 2800 1600; frame]).
  exact sampleRandom_unit.
Defined.

Lemma spec_opacity_shift (ba phase : R) :
  spec_opacity ba (phase + PI) = spec_opacity ba phase.
Proof.
  unfold spec_opacity. rewrite neg_sin, Rabs_Ropp. reflexivity.
Qed.

(** X23: the twinkle of a star repeats with every pi of phase.  Two stars
    that differ only by pi in their phase are drawn alike, so a star
    twinkles with a period of pi / twinkleSpeed frames; and the opacity of
    the inner disc is never below the base opacity of the star (or 1). *)
Theorem twinkle_period (c : Canvas) (mX mY x y r tw sp ba par : R) :
  snd (drawParticle c mX mY (star x y r (tw + PI) sp ba par))
    = snd (drawParticle c mX mY (star x y r tw sp ba par)) /\
  exists a : R,
    hd_error (snd (drawParticle c mX mY (star x y r tw sp ba par)))
      = Some (arc a (Nadd (Fin x) (parallaxOffset mX (width c) par))
                    (Nadd (Fin y) (parallaxOffset mY (height c) par)) (r * 1.1)) /\
    Rmin 1 ba <= a <= 1.
Proof.
  split.
  - cbn [drawParticle snd].
    replace (tw + PI + sp) with (tw + sp + PI) by ring.
    fold (spec_opacity ba (tw + sp + PI)). fold (spec_opacity ba (tw + sp)).
    now rewrite spec_opacity_shift.
  - eexists. split; [reflexivity |].
    pose proof (Rabs_pos (sin (tw + sp))) as Hs. split.
    + apply Rmin_glb; [apply Rmin_l |].
      apply Rle_trans with ba; [apply Rmin_r | lra].
    + apply Rmin_l.
Qed.

(** * What a tick does to the stars and what it displays *)












Lemma frame_shows (pg : Page) :
  snd (handle pg frame)
    = clearRect (width (canvas pg)) (height (canvas pg))
        :: flat_map (shown (canvas pg) (mouseX pg) (mouseY pg)) (particles pg).
Proof.
  cbn [handle drawParticles snd]. f_equal.
  induction (particles pg) as [| p ps IH]; [reflexivity |].
  cbn [map concat flat_map]. rewrite IH. f_equal.
  destruct p as [x y vx vy r a | x y r tw sp ba par]; cbn [drawParticle snd shown].
  - now rewrite !wrap_spec.
  - reflexivity.
Qed.

Lemma frame_star (pg : Page) (x y r tw sp ba par : R) :
  In (star x y r tw sp ba par) (particles pg) ->
  In (star x y r (tw + sp) sp ba par) (particles (fst (handle pg frame))) /\
  forall d : DrawCmd,
    In d (shown (canvas pg) (mouseX pg) (mouseY pg) (star x y r tw sp ba par)) ->
    In d (snd (handle pg frame)).
Proof.
  intro Hin. split.
  - rewrite handle_frame_particles.
    apply (in_map (fun p => fst (drawParticle (canvas pg) (mouseX pg) (mouseY pg) p))
                  _ _ Hin).
  - intros d Hd. rewrite frame_shows. right.
    apply in_flat_map. exists (star x y r tw sp ba par). split; assumption.
Qed.

#[local] Set Warnings "-inexact-float".




(** C7: on each tick the frame displays every star of the page with the
    opacity min(1, baseAlpha + |sin(phase)| * 0.6), where phase is the
    twinkle phase the tick has just advanced to and stored: the inner disc
    has that opacity and the outer one 0.6 of it, and these are all the
    frame draws besides clearing.  The opacity never exceeds 1, and for
    baseAlpha = 0.9 at a phase with sin(phase) = 1 it is exactly 1. *)
Theorem star_opacity (pg : Page) (x y r tw sp ba par : R) :
  In (star x y r tw sp ba par) (particles pg) ->
  let phase := tw + sp in
  let a := spec_opacity ba phase in
  let cx := Nadd (Fin x) (parallaxOffset (mouseX pg) (width (canvas pg)) par) in
  let cy := Nadd (Fin y) (parallaxOffset (mouseY pg) (height (canvas pg)) par) in
  snd (handle pg frame)
    = clearRect (width (canvas pg)) (height (canvas pg))
        :: flat_map (shown (canvas pg) (mouseX pg) (mouseY pg)) (particles pg) /\
  In (star x y r phase sp ba par) (particles (fst (handle pg frame))) /\
  In (arc a cx cy (r * 1.1)) (snd (handle pg frame)) /\
  In (arc (a * 0.6) cx cy (r * 2.6)) (snd (handle pg frame)) /\
  a <= 1 /\
  (ba = 0.9 -> sin phase = 1 -> a = 1).
Proof.
  intros Hin phase a cx cy.
  destruct (frame_star pg x y r tw sp ba par Hin) as [Hstar Hdraw].
  split; [apply frame_shows |]. split; [exact Hstar |].
  split; [apply Hdraw; cbn [shown]; left; reflexivity |].
  split; [apply Hdraw; cbn [shown]; right; left; reflexivity |].
  split; [apply spec_opacity_le_1 |].
  intros -> Hsin. unfold a, spec_opacity. rewrite Hsin, Rabs_R1.
  apply Rmin_left. lra.
Qed.

Lemma star_opacity_witness :
  In (arc (spec_opacity 0.9 (PI / 2 - 0.01 + 0.01))
          (Nadd (Fin 3) (parallaxOffset 0 1400 0.5))
          (Nadd (Fin 4) (parallaxOffset 0 800 0.5)) (1 * 1.1))
     (snd (handle oneStar frame)) /\
  spec_opacity 0.9 (PI / 2 - 0.01 + 0.01) = 1.
Proof.
  destruct (star_opacity oneStar 3 4 1 (PI / 2 - 0.01) 0.01 0.9 0.5)
    as (_ & _ & Hdisc & _ & _ & Hone).
  - left. reflexivity.
  - split; [exact Hdisc |]. apply Hone; [reflexivity |].
    replace (PI / 2 - 0.01 + 0.01) with (PI / 2) by lra. exact sin_PI2.
Defined.

(** C8, amended: the ['mousemove'] listener stores the pointer, and on a
    canvas whose width and height are not zero every tick draws the two
    discs of every star at its stored position plus the offset
    ((pointerX/width - 0.5) * 30 * parallax,
     (pointerY/height - 0.5) * 30 * parallax) of the stored pointer; with
    the pointer at the exact centre the offset is (0, 0) whatever the
    parallax factor, and the discs are at the stored position. *)
Theorem parallax_offset (pg : Page) (pX pY x y r tw sp ba par : R) :
  width (canvas pg) <> 0%N -> height (canvas pg) <> 0%N ->
  In (star x y r tw sp ba par) (particles pg) ->
  let W := width (canvas pg) in
  let H := height (canvas pg) in
  let moved := fst (handle pg (mousemove pX pY)) in
  let a := spec_opacity ba (tw + sp) in
  (mouseX moved = pX /\ mouseY moved = pY /\
   canvas moved = canvas pg /\ particles moved = particles pg) /\
  (parallaxOffset pX W par = Fin (spec_offset pX W par) /\
   parallaxOffset pY H par = Fin (spec_offset pY H par)) /\
  (In (arc a (Fin (x + spec_offset pX W par)) (Fin (y + spec_offset pY H par))
           (r * 1.1)) (snd (handle moved frame)) /\
   In (arc (a * 0.6) (Fin (x + spec_offset pX W par)) (Fin (y + spec_offset pY H par))
           (r * 2.6)) (snd (handle moved frame))) /\
  (In (arc a (Fin (x + spec_offset (mouseX pg) W par))
             (Fin (y + spec_offset (mouseY pg) H par)) (r * 1.1))
      (snd (handle pg frame))) /\
  (pX = ofN W / 2 -> pY = ofN H / 2 ->
   spec_offset pX W par = 0 /\ spec_offset pY H par = 0 /\
   In (arc a (Fin x) (Fin y) (r * 1.1)) (snd (handle moved frame)) /\
   In (arc (a * 0.6) (Fin x) (Fin y) (r * 2.6)) (snd (handle moved frame))).
Proof.
  intros Hw Hh Hin W H moved a.
  assert (forall m, parallaxOffset m W par = Fin (spec_offset m W par)) as Hx
      by (intro m; now apply parallaxOffset_finite).
  assert (forall m, parallaxOffset m H par = Fin (spec_offset m H par)) as Hy
      by (intro m; now apply parallaxOffset_finite).
  assert (In (star x y r tw sp ba par) (particles moved)) as Hin' by exact Hin.
  destruct (frame_star moved x y r tw sp ba par Hin') as [_ Hdraw].
  destruct (frame_star pg x y r tw sp ba par Hin) as [_ Hdraw0].
  assert (In (arc a (Fin (x + spec_offset pX W par)) (Fin (y + spec_offset pY H par))
                  (r * 1.1)) (snd (handle moved frame))) as Hinner.
  { apply Hdraw. cbn [shown moved handle fst canvas mouseX mouseY].
    fold W H. rewrite Hx, Hy. left. reflexivity. }
  assert (In (arc (a * 0.6) (Fin (x + spec_offset pX W par))
                  (Fin (y + spec_offset pY H par)) (r * 2.6))
             (snd (handle moved frame))) as Houter.
  { apply Hdraw. cbn [shown moved handle fst canvas mouseX mouseY].
    fold W H. rewrite Hx, Hy. right. left. reflexivity. }
  split; [repeat split |]. split; [split; [apply Hx | apply Hy] |].
  split; [split; assumption |]. split.
  - apply Hdraw0. cbn [shown]. fold W H. rewrite Hx, Hy. left. reflexivity.
  - intros HpX HpY.
    assert (spec_offset pX W par = 0) as Hox
        by (rewrite HpX; now apply spec_offset_centre).
    assert (spec_offset pY H par = 0) as Hoy
        by (rewrite HpY; now apply spec_offset_centre).
    rewrite Hox, Hoy, !Rplus_0_r in Hinner, Houter.
    repeat split; assumption.
Qed.

Lemma parallax_offset_witness :
  In (arc (spec_opacity 0.9 (PI / 2 - 0.01 + 0.01)) (Fin 3) (Fin 4) (1 * 1.1))
     (snd (handle (fst (handle oneStar (mousemove (ofN 1400 / 2) (ofN 800 / 2)))) frame)).
Proof.
  destruct (parallax_offset oneStar (ofN 1400 / 2) (ofN 800 / 2)
              3 4 1 (PI / 2 - 0.01) 0.01 0.9 0.5)
    as (_ & _ & _ & _ & Hcentre).
  - discriminate.
  - discriminate.
  - left. reflexivity.
  - destruct (Hcentre eq_refl eq_refl) as (_ & _ & Hdisc & _). exact Hdisc.
Defined.

(** * Faults

    The one call of the particle code that can throw is [ctx.arc], on a
    negative radius. *)

Lemma paint_app (l1 l2 : list DrawCmd) (a b : list Painted) :
  paint l1 = Some a -> paint l2 = Some b -> paint (l1 ++ l2) = Some (a ++ b).
Proof.
  revert a. induction l1 as [| d l1 IH]; intros a H1 H2.
  - cbn in H1. injection H1 as <-. exact H2.
  - cbn [app paint] in *. destruct (paintOne d) as [first |]; [| discriminate].
    destruct (paint l1) as [more |]; [| discriminate].
    injection H1 as <-. rewrite (IH more eq_refl H2). now rewrite app_assoc.
Qed.

Lemma Nadd_special (x : R) (s : comparison) :
  forall v : R, Nadd (Fin x) (signed_inf s) <> Fin v.
Proof. intro v. destruct s; discriminate. Qed.

(** What the particles of a frame put on the context: no exception, one
    disc for a dust particle, and nothing for a star when an edge of the
    canvas is zero. *)
Lemma paint_particles (c : Canvas) (mX mY : R) (ps : list Particle) :
  Forall looksInRange ps ->
  exists painted : list Painted,
    paint (concat (map snd (map (drawParticle c mX mY) ps))) = Some painted /\
    (width c = 0%N \/ height c = 0%N -> length painted = dustCount ps).
Proof.
  unfold dustCount.
  induction 1 as [| p ps Hp _ (painted & Hpaint & Hlen)].
  - exists []. split; reflexivity.
  - cbn [map concat].
    assert (exists one : list Painted,
               paint (snd (drawParticle c mX mY p)) = Some one /\
               (width c = 0%N \/ height c = 0%N ->
                length one = length (filter isDot [p]))) as (one & Hone & Hlen1).
    { destruct p as [x y vx vy r a | x y r tw sp ba par]; cbn [looksInRange] in Hp.
      - destruct Hp as [Hr _]. cbn [drawParticle snd paint paintOne].
        destruct (Rlt_dec r 0) as [Hneg | _]; [lra |].
        eexists. split; reflexivity.
      - destruct Hp as (Hr & _). cbn [drawParticle snd paint paintOne].
        destruct (Nadd (Fin x) (parallaxOffset mX (width c) par)) as [cx | | |] eqn:Hcx;
          destruct (Nadd (Fin y) (parallaxOffset mY (height c) par)) as [cy | | |] eqn:Hcy;
          try (exists []; split; [reflexivity |]; intros _; reflexivity).
        destruct (Rlt_dec (r * 1.1) 0) as [Hneg | _]; [lra |].
        destruct (Rlt_dec (r * 2.6) 0) as [Hneg | _]; [lra |].
        eexists. split; [reflexivity |].
        intros [Hw | Hh]; exfalso.
        + rewrite Hw in Hcx.
          destruct (parallaxOffset_zero_edge mX par) as [s Hs].
          rewrite Hs in Hcx. exact (Nadd_special x s cx Hcx).
        + rewrite Hh in Hcy.
          destruct (parallaxOffset_zero_edge mY par) as [s Hs].
          rewrite Hs in Hcy. exact (Nadd_special y s cy Hcy). }
    exists (one ++ painted). split; [now apply paint_app |].
    intro Hzero. rewrite length_app, (Hlen1 Hzero), (Hlen Hzero).
    change (p :: ps) with ([p] ++ ps). now rewrite filter_app, length_app.
Qed.

(** On a canvas without a zero edge every disc is painted. *)
Lemma paint_particles_all (c : Canvas) (mX mY : R) (ps : list Particle) :
  Forall looksInRange ps ->
  width c <> 0%N -> height c <> 0%N ->
  exists painted : list Painted,
    paint (concat (map snd (map (drawParticle c mX mY) ps))) = Some painted /\
    length painted = (dustCount ps + 2 * starCount ps)%nat.
Proof.
  intros Hall Hw Hh. unfold dustCount, starCount.
  induction Hall as [| p ps Hp _ (painted & Hpaint & Hlen)].
  - exists []. split; reflexivity.
  - cbn [map concat].
    assert (exists one : list Painted,
               paint (snd (drawParticle c mX mY p)) = Some one /\
               length one = (length (filter isDot [p])
                             + 2 * length (filter isStar [p]))%nat)
      as (one & Hone & Hlen1).
    { destruct p as [x y vx vy r a | x y r tw sp ba par]; cbn [looksInRange] in Hp.
      - destruct Hp as [Hr _]. cbn [drawParticle snd paint paintOne].
        destruct (Rlt_dec r 0) as [Hneg | _]; [lra |].
        eexists. split; reflexivity.
      - destruct Hp as (Hr & _). cbn [drawParticle snd paint paintOne].
        rewrite !(parallaxOffset_finite _ _ _ Hw), !(parallaxOffset_finite _ _ _ Hh).
        cbn [Nadd].
        destruct (Rlt_dec (r * 1.1) 0) as [Hneg | _]; [lra |].
        destruct (Rlt_dec (r * 2.6) 0) as [Hneg | _]; [lra |].
        eexists. split; reflexivity. }
    exists (one ++ painted). split; [now apply paint_app |].
    rewrite length_app, Hlen1, Hlen.
    change (p :: ps) with ([p] ++ ps). rewrite !filter_app, !length_app. lia.
Qed.

Lemma paint_frame (pg : Page) :
  Forall looksInRange (particles pg) ->
  exists painted : list Painted,
    paint (snd (handle pg frame)) = Some painted /\
    (width (canvas pg) = 0%N \/ height (canvas pg) = 0%N ->
     length painted = S (dustCount (particles pg))).
Proof.
  intro Hlooks.
  destruct (paint_particles (canvas pg) (mouseX pg) (mouseY pg) (particles pg) Hlooks)
    as (painted & Hpaint & Hlen).
  exists (wiped (width (canvas pg)) (height (canvas pg)) :: painted).
  cbn [handle drawParticles snd paint paintOne]. rewrite Hpaint.
  split; [reflexivity |]. intro Hzero. cbn [length]. now rewrite (Hlen Hzero).
Qed.

(** C9, amended: particle creation and every listener are total, for every
    window size, every sequence of events and every pointer position, and
    nothing in them throws: [ctx.arc] is never given a negative radius.
    A window of area zero gives 30 dust particles and 70 stars; every
    particle is created at x = 0 when the width is zero and at y = 0 when
    the height is zero, the other coordinate being random.  While an edge
    of the canvas is zero, the division by it makes the parallax offset
    NaN or an infinity, which [ctx.arc] ignores: a frame then paints the
    dust particles and no star, where on any other canvas it paints one
    disc for every dust particle and two for every star. *)
Theorem zero_area_page (iw ih : N) (rnd : Random) (evs : list Event) (e : Event) :
  unit_interval rnd ->
  let pg := run evs (boot iw ih rnd) in
  (exists painted : list Painted, paint (snd (handle pg e)) = Some painted) /\
  length (particles (fst (handle pg e))) = length (particles (boot iw ih rnd)) /\
  (width (canvas pg) = 0%N \/ height (canvas pg) = 0%N ->
   exists painted : list Painted,
     paint (snd (handle pg frame)) = Some painted /\
     length painted = S (dustCount (particles pg))) /\
  (width (canvas pg) <> 0%N -> height (canvas pg) <> 0%N ->
   exists painted : list Painted,
     paint (snd (handle pg frame)) = Some painted /\
     length painted
       = S (dustCount (particles pg) + 2 * starCount (particles pg))) /\
  ((iw * ih = 0)%N ->
   dustCount (particles (boot iw ih rnd)) = 30%nat /\
   starCount (particles (boot iw ih rnd)) = 70%nat) /\
  (iw = 0%N -> Forall (fun p => p_x p = 0) (particles (boot iw ih rnd))) /\
  (ih = 0%N -> Forall (fun p => p_y p = 0) (particles (boot iw ih rnd))) /\
  forall mouse par : R,
    exists s : comparison, parallaxOffset mouse 0 par = signed_inf s.
Proof.
  intros Hu pg.
  pose proof (run_looks iw ih rnd evs Hu) as Hlooks. fold pg in Hlooks.
  destruct (paint_frame pg Hlooks) as (painted & Hpaint & Hlen).
  split; [| split; [| split; [| split; [| split; [| split; [| split]]]]]].
  - destruct e as [w h | cx cy |].
    + exists []. reflexivity.
    + exists []. reflexivity.
    + exists painted. exact Hpaint.
  - change (fst (handle pg e)) with (run [e] pg). unfold pg.
    now rewrite !run_length.
  - intro Hzero. exists painted. split; [exact Hpaint | now apply Hlen].
  - intros Hw Hh.
    destruct (paint_particles_all (canvas pg) (mouseX pg) (mouseY pg) (particles pg)
                Hlooks Hw Hh) as (discs & Hdiscs & Hcount).
    exists (wiped (width (canvas pg)) (height (canvas pg)) :: discs).
    cbn [handle drawParticles snd paint paintOne]. rewrite Hdiscs.
    split; [reflexivity |]. cbn [length]. now rewrite Hcount.
  - intro Harea.
    destruct (createParticles_counts
                (resizeCanvas iw ih (mkPage (mkCanvas 0 0) 0 0 [])) rnd 0) as [Hd Hs].
    cbn [resizeCanvas canvas] in Hd, Hs. unfold dotCount in Hd. unfold starCountOf in Hs.
    cbn [width height] in Hd, Hs. rewrite Harea in Hd, Hs.
    split; [exact Hd | exact Hs].
  - intros ->. apply boot_Forall; intro j; cbn; rewrite ofN_0; ring.
  - intros ->. apply boot_Forall; intro j; cbn; rewrite ofN_0; ring.
  - apply parallaxOffset_zero_edge.
Qed.

Lemma zero_area_page_witness :
  exists painted : list Painted,
    paint (snd (handle (run [frame; mousemove (-5) 100000]
                            (boot 0 800 sampleRandom)) frame)) = Some painted.
Proof.
  apply (zero_area_page 0 800 sampleRandom [frame; mousemove (-5) 100000] frame).
  exact sampleRandom_unit.
Defined.
